(** * PlaywrightCrawler: a shallow embedding of [src/index.ts]

    The crawler of the repository is a single class, [PlaywrightCrawler],
    whose methods are embedded below as functions over an explicit crawler
    state.  The collaborators the class calls into (the Playwright browser,
    the WHATWG [URL] class, [fs.promises.writeFile]) are the fields of an
    environment record: every theorem about the controller holds for all of
    their behaviours, and concrete environments are used for scenarios. *)

From Stdlib Require Import ZArith String Ascii List Bool Lia.
From stdpp Require Import base gmap sets list strings.

Local Open Scope string_scope.

(** ** Strings *)

Module JsString.

(** [s.startsWith(p)] *)
Definition startsWith (s p : string) : bool := String.prefix p s.

Definition isAlnum (c : ascii) : bool :=
  let n := nat_of_ascii c in
  ((48 <=? n) && (n <=? 57) || (65 <=? n) && (n <=? 90)
   || (97 <=? n) && (n <=? 122))%nat.

(** ASCII part of [toLowerCase]. *)
Definition lowerChar (c : ascii) : ascii :=
  let n := nat_of_ascii c in
  if ((65 <=? n) && (n <=? 90))%nat then ascii_of_nat (n + 32) else c.

Definition toLowerCase (s : string) : string :=
  string_of_list_ascii (List.map lowerChar (list_ascii_of_string s)).

(** Strings stand for JavaScript strings by their UTF-8 encoding.  What
    [trim] removes at both ends are the white space and line terminator code
    points: U+0009 to U+000D, U+0020, U+00A0, U+1680, U+2000 to U+200A,
    U+2028, U+2029, U+202F, U+205F, U+3000 and U+FEFF, here by the one, two
    or three bytes of their encoding. *)
Definition isSpace1 (a : ascii) : bool :=
  let n := nat_of_ascii a in
  ((n =? 32) || (9 <=? n) && (n <=? 13))%nat.

Definition isSpace2 (a b : ascii) : bool :=
  ((nat_of_ascii a =? 194) && (nat_of_ascii b =? 160))%nat.

Definition isSpace3 (a b c : ascii) : bool :=
  let x := nat_of_ascii a in
  let y := nat_of_ascii b in
  let z := nat_of_ascii c in
  ((x =? 225) && (y =? 154) && (z =? 128)
   || (x =? 226) && (y =? 128)
      && ((128 <=? z) && (z <=? 138) || (z =? 168) || (z =? 169) || (z =? 175))
   || (x =? 226) && (y =? 129) && (z =? 159)
   || (x =? 227) && (y =? 128) && (z =? 128)
   || (x =? 239) && (y =? 187) && (z =? 191))%nat.

(** The rest of [l] after the white space it starts with, if it starts with
    one. *)
Definition dropSpace (l : list ascii) : option (list ascii) :=
  match l with
  | a :: r1 =>
      if isSpace1 a then Some r1
      else match r1 with
           | b :: r2 =>
               if isSpace2 a b then Some r2
               else match r2 with
                    | c :: r3 => if isSpace3 a b c then Some r3 else None
                    | [] => None
                    end
           | [] => None
           end
  | [] => None
  end.

(** The same on a reversed string: the bytes of a code point come last
    byte first. *)
Definition dropSpaceRev (l : list ascii) : option (list ascii) :=
  match l with
  | a :: r1 =>
      if isSpace1 a then Some r1
      else match r1 with
           | b :: r2 =>
               if isSpace2 b a then Some r2
               else match r2 with
                    | c :: r3 => if isSpace3 c b a then Some r3 else None
                    | [] => None
                    end
           | [] => None
           end
  | [] => None
  end.

(** [drop] applied as long as it applies; [fuel] is the length of the
    string, and no string holds more code points than bytes. *)
Fixpoint dropWhile (drop : list ascii -> option (list ascii)) (fuel : nat)
  (l : list ascii) : list ascii :=
  match fuel with
  | O => l
  | S fuel' =>
      match drop l with
      | Some r => dropWhile drop fuel' r
      | None => l
      end
  end.

Definition trimStart (s : string) : string :=
  let l := list_ascii_of_string s in
  string_of_list_ascii (dropWhile dropSpace (List.length l) l).

Definition trimEnd (s : string) : string :=
  let l := List.rev (list_ascii_of_string s) in
  string_of_list_ascii (List.rev (dropWhile dropSpaceRev (List.length l) l)).

Definition trim (s : string) : string := trimEnd (trimStart s).

Definition nl : string := String (ascii_of_nat 10) EmptyString.

End JsString.

Import JsString.

(** ** Values shared by the methods *)

(** The completion of a call that may throw. *)
Inductive Result (A : Type) : Type :=
| Returned (a : A)
| Thrown.
Arguments Returned {A} a.
Arguments Thrown {A}.

(** The document loaded in the page, as [page.evaluate] sees it:
    [queryText sel] is the [textContent] of [document.querySelector(sel)]
    once the header has been removed ([None] when no element matches),
    [bodyText] is the [textContent] of [document.body] ([None] when the
    document has no body element; on a frameset document [document.body] is
    the frameset, which no [body] selector matches), and [anchorHrefs] lists
    [el.getAttribute("href")] for the [a] elements in document order ([None]
    for an anchor without the attribute). *)
Record Page : Type := {
  queryText : string -> option string;
  bodyText : option string;
  anchorHrefs : list (option string)
}.

(** What the class calls into. *)
Record Env : Type := {
  (** [chromium.launch()] succeeds *)
  launch : bool;
  (** [browser.newPage()] succeeds *)
  newPage : bool;
  (** [new URL(s).origin], [None] when the constructor throws *)
  urlOrigin : string -> option string;
  (** [new URL(href, base).href], [None] when the constructor throws *)
  urlResolve : string -> string -> option string;
  (** [page.goto(url)] followed by [page.waitForLoadState], [None] when
      either throws *)
  goto : string -> option Page;
  (** [fs.promises.writeFile(path, data)] succeeds *)
  writeFile : string -> string -> bool
}.

(** Calls to the collaborators and console lines, in program order. *)
Inductive Event : Type :=
| LogCrawling (url : string)
| CallGoto (url : string)
| CallSaveToFile (url : string)
| LogSaved (filePath : string)
| LogSaveFailed (url : string)
| LogDiscovered (n : nat) (url : string)
| LogCrawlFailed (url : string)
| LogCompleted (n : nat).

Inductive BrowserState : Type :=
| NoBrowser
| BrowserOpen
| BrowserClosed.

(** The fields of a [PlaywrightCrawler], the files under [outputDir] and the
    events so far.  [seen] is a history variable: for each event of [trace],
    in the same order, the value that [visitedUrls] had when the event took
    place.  No method reads it; [emit] alone extends it. *)
Record Crawler : Type := {
  visitedUrls : gset string;
  pageCount : nat;
  browser : BrowserState;
  disk : gmap string string;
  trace : list Event;
  seen : list (gset string)
}.

Definition outputDir : string := "output".


(** [new PlaywrightCrawler()] where [outputDir] is absent or empty. *)
Definition newCrawler : Crawler :=
  {| visitedUrls := ∅; pageCount := 0; browser := NoBrowser;
     disk := ∅; trace := []; seen := [] |}.

Definition emit (e : Event) (st : Crawler) : Crawler :=
  {| visitedUrls := visitedUrls st; pageCount := pageCount st;
     browser := browser st; disk := disk st; trace := trace st ++ [e];
     seen := seen st ++ [visitedUrls st] |}.

(** [this.visitedUrls.add(url)] *)
Definition markVisited (url : string) (st : Crawler) : Crawler :=
  {| visitedUrls := {[url]} ∪ visitedUrls st; pageCount := pageCount st;
     browser := browser st; disk := disk st; trace := trace st;
     seen := seen st |}.

Definition setBrowser (b : BrowserState) (st : Crawler) : Crawler :=
  {| visitedUrls := visitedUrls st; pageCount := pageCount st;
     browser := b; disk := disk st; trace := trace st; seen := seen st |}.

(** A successful write followed by [this.pageCount++]. *)
Definition stored (filePath fileContent : string) (st : Crawler) : Crawler :=
  {| visitedUrls := visitedUrls st; pageCount := S (pageCount st);
     browser := browser st; disk := <[filePath := fileContent]> (disk st);
     trace := trace st; seen := seen st |}.

(** ** urlToFileName *)

(** [.replace(/^https?:\/\//, "")] *)
Definition stripScheme (url : string) : string :=
  if startsWith url "https://" then String.substring 8 (String.length url - 8) url
  else if startsWith url "http://" then String.substring 7 (String.length url - 7) url
  else url.

(** [.replace(/[^a-zA-Z0-9]/g, "_")] *)
Definition replaceNonAlnum (s : string) : string :=
  string_of_list_ascii
    (List.map (fun c => if isAlnum c then c else "_"%char) (list_ascii_of_string s)).

(** [.replace(/_+/g, "_")] *)
Fixpoint collapseUnderscores (s : string) : string :=
  match s with
  | String "_" (String "_" _ as r) => collapseUnderscores r
  | String c r => String c (collapseUnderscores r)
  | EmptyString => EmptyString
  end.

Definition urlToFileName (url : string) : string :=
  toLowerCase (collapseUnderscores (replaceNonAlnum (stripScheme url))) ++ ".txt".

(** ** extractContent *)

Definition selectors : list string := ["main"; "#__next > div"; "#__next"; "body"].

Fixpoint firstNonEmpty (pg : Page) (sels : list string) : option string :=
  match sels with
  | [] => None
  | sel :: rest =>
      match queryText pg sel with
      | Some (String _ _ as text) => Some text
      | _ => firstNonEmpty pg rest
      end
  end.

(** The function handed to [page.evaluate], run to its end.  Its last line
    reads [document.body.textContent], which throws when [document.body] is
    null; a text that is there is returned as it is, empty or not. *)
Definition extractContent (pg : Page) : Result string :=
  match firstNonEmpty pg selectors with
  | Some text => Returned text
  | None =>
      match bodyText pg with
      | Some text => Returned text
      | None => Thrown
      end
  end.

(** ** discoverLinks *)

(** [links.add(href)] on a [Set] kept in insertion order. *)
Definition setAdd (links : list string) (href : string) : list string :=
  if bool_decide (href ∈ links) then links else links ++ [href].

Definition nonEmpty (s : string) : bool :=
  match s with EmptyString => false | String _ _ => true end.

Section Discover.
Variable env : Env.
Variable baseUrl : string.

(** The first [if] of the callback: the value of [href] after it. *)
Definition resolveHref (attr : option string) : Result (option string) :=
  match attr with
  | None => Returned None
  | Some href =>
      if nonEmpty href && negb (startsWith href "http") && negb (startsWith href "#")
      then match urlResolve env href baseUrl with
           | Some abs => Returned (Some abs)
           | None => Thrown
           end
      else Returned (Some href)
  end.

(** The second [if] of the callback. *)
Definition addIfInScope (href : option string) (links : list string) : list string :=
  match href with
  | Some h => if nonEmpty h && startsWith h baseUrl then setAdd links h else links
  | None => links
  end.

(** [document.querySelectorAll("a").forEach(...)]: an exception in the
    callback ends the loop and the evaluation. *)
Fixpoint forEachAnchor (anchors : list (option string)) (links : list string)
  : Result (list string) :=
  match anchors with
  | [] => Returned links
  | attr :: rest =>
      match resolveHref attr with
      | Returned href => forEachAnchor rest (addIfInScope href links)
      | Thrown => Thrown
      end
  end.

Definition discoverLinks (pg : Page) : Result (list string) :=
  forEachAnchor (anchorHrefs pg) [].

End Discover.

(** ** The crawl controller *)

(** A run of the recursive procedure under a recursion-depth allowance. *)
Inductive Run : Type :=
| Done (st : Crawler)
| OutOfFuel.

Section Controller.
Variable env : Env.

(** [saveToFile]: the [try] around the write catches its failure. *)
Definition saveToFile (url content : string) (st : Crawler) : Crawler :=
  let fileName := urlToFileName url in
  let filePath := outputDir ++ "/" ++ fileName in
  let fileContent := "URL: " ++ url ++ nl ++ nl ++ "Content:" ++ nl ++ trim content in
  let st := emit (CallSaveToFile url) st in
  if writeFile env filePath fileContent
  then emit (LogSaved filePath) (stored filePath fileContent st)
  else emit (LogSaveFailed url) st.

Variable baseUrl : string.
Variable maxPages : Z.

Definition visitedSize (st : Crawler) : Z := Z.of_nat (size (visitedUrls st)).

(** The [for (const link of links)] loop of [crawlPage]; [visit] is the
    recursive call. *)
Fixpoint forLinks (visit : string -> Crawler -> Run) (links : list string)
  (st : Crawler) : Run :=
  match links with
  | [] => Done st
  | link :: rest =>
      if (visitedSize st <? maxPages)%Z then
        match visit link st with
        | Done st' => forLinks visit rest st'
        | OutOfFuel => OutOfFuel
        end
      else Done st
  end.

(** The guard at the head of [crawlPage]. *)
Definition skips (url : string) (st : Crawler) : bool :=
  (visitedSize st >=? maxPages)%Z || bool_decide (url ∈ visitedUrls st).

(** [crawlPage]; [fuel] bounds the depth of the recursion.  Every throw
    inside the [try] lands in the one [catch]. *)
Fixpoint crawlPage (fuel : nat) (url : string) (st : Crawler) : Run :=
  match fuel with
  | O => OutOfFuel
  | S fuel' =>
      if skips url st then Done st
      else
        let st := markVisited url (emit (LogCrawling url) st) in
        let st := emit (CallGoto url) st in
        match goto env url with
        | None => Done (emit (LogCrawlFailed url) st)
        | Some pg =>
            match extractContent pg with
            | Thrown => Done (emit (LogCrawlFailed url) st)
            | Returned content =>
                let st := saveToFile url content st in
                match discoverLinks env baseUrl pg with
                | Thrown => Done (emit (LogCrawlFailed url) st)
                | Returned links =>
                    let st := emit (LogDiscovered (length links) url) st in
                    forLinks (crawlPage fuel') links st
                end
            end
        end
  end.

End Controller.

(** How a call of [crawl] ends. *)
Inductive Outcome : Type :=
| Resolved (st : Crawler)
| Rejected (st : Crawler)
| Diverged.

(** Recursion depth that [crawl] grants [crawlPage]: one level per page of
    the budget and one for the call that is skipped. *)
Definition crawlFuel (maxPages : Z) : nat := S (Z.to_nat maxPages).

(** [crawl(startUrl, maxPages)] on a crawler in state [st]. *)
Definition crawl (env : Env) (startUrl : string) (maxPages : Z) (st : Crawler)
  : Outcome :=
  if launch env then
    let st := setBrowser BrowserOpen st in
    if newPage env then
      match urlOrigin env startUrl with
      | Some baseUrl =>
          match crawlPage env baseUrl maxPages (crawlFuel maxPages) startUrl st with
          | Done st =>
              let st := setBrowser BrowserClosed st in
              Resolved (emit (LogCompleted (pageCount st)) st)
          | OutOfFuel => Diverged
          end
      | None => Rejected st
      end
    else Rejected st
  else Rejected st.

(** Recursion depth that a run of [crawlPage] from [st] can still need. *)
Definition depthLeft (maxPages : Z) (st : Crawler) : nat :=
  Z.to_nat (maxPages - visitedSize st).

(** The default of the [maxPages] parameter. *)
Definition defaultMaxPages : Z := 10.

(** ** Reading a trace *)

Definition crawledUrl (e : Event) : option string :=
  match e with LogCrawling u => Some u | _ => None end.
Definition gotoUrl (e : Event) : option string :=
  match e with CallGoto u => Some u | _ => None end.
Definition savedUrl (e : Event) : option string :=
  match e with CallSaveToFile u => Some u | _ => None end.
Definition isSaved (e : Event) : bool :=
  match e with LogSaved _ => true | _ => false end.

(** URLs admitted, navigated to and handed to [saveToFile], in order. *)
Definition crawled (tr : list Event) : list string := omap crawledUrl tr.
Definition navigated (tr : list Event) : list string := omap gotoUrl tr.
Definition saveCalls (tr : list Event) : list string := omap savedUrl tr.
(** Number of successful writes. *)
Definition savedCount (tr : list Event) : nat :=
  length (List.filter isSaved tr).

(** ** A test double for [URL]

    Enough of the URL standard for the scenarios below: http(s) URLs with a
    plain lower-case host, no credentials, no default port, no dot segments
    and nothing to percent-encode. *)
Module UrlDouble.

Definition endsAuthority (c : ascii) : bool :=
  match c with
  | "/"%char | "?"%char | "#"%char => true
  | _ => false
  end.

Fixpoint authority (s : string) : string :=
  match s with
  | String c r => if endsAuthority c then EmptyString else String c (authority r)
  | EmptyString => EmptyString
  end.

Fixpoint afterAuthority (s : string) : string :=
  match s with
  | String c r => if endsAuthority c then s else afterAuthority r
  | EmptyString => EmptyString
  end.

Definition dropChars (n : nat) (s : string) : string :=
  String.substring n (String.length s - n) s.

(** scheme, host and port of [scheme://authority...]; a missing host is a
    parse failure. *)
Definition originOf (scheme rest : string) : option string :=
  match authority rest with
  | EmptyString => None
  | a => Some (scheme ++ "://" ++ a)
  end.

Definition origin (s : string) : option string :=
  if startsWith s "https://" then originOf "https" (dropChars 8 s)
  else if startsWith s "http://" then originOf "http" (dropChars 7 s)
  else None.

Definition schemeOf (base : string) : string :=
  if startsWith base "https://" then "https" else "http".

Definition hasColon (s : string) : bool :=
  match String.index 0 ":" s with Some _ => true | None => false end.

(** [new URL(href, base).href] for [base] an http(s) origin. *)
Definition resolve (href base : string) : option string :=
  if startsWith href "//" then
    let rest := dropChars 2 href in
    match authority rest with
    | EmptyString => None
    | a =>
        Some (schemeOf base ++ "://" ++ a ++
              match afterAuthority rest with
              | EmptyString => "/"
              | p => p
              end)
    end
  else if startsWith href "/" then Some (base ++ href)
  else if hasColon href then Some href
  else Some (base ++ "/" ++ href).

End UrlDouble.

(** ** The controller as a sequence of steps *)

(** The head of a visit that is not skipped: the console line, the
    insertion into [visitedUrls], then the navigation. *)
Definition beginVisit (url : string) (st : Crawler) : Crawler :=
  emit (CallGoto url) (markVisited url (emit (LogCrawling url) st)).

(** Console lines that follow a visit. *)
Definition isNote (e : Event) : bool :=
  match e with
  | LogCrawlFailed _ | LogDiscovered _ _ => true
  | _ => false
  end.

Section Steps.
Variable env : Env.
Variable maxPages : Z.

(** What [crawlPage] does to the crawler between two of its decisions. *)
Inductive Step : Crawler -> Crawler -> Prop :=
| StepBegin url st :
    skips maxPages url st = false -> Step st (beginVisit url st)
| StepSave url content st (tr : list Event) :
    trace st = (tr ++ [CallGoto url])%list ->
    Step st (saveToFile env url content st)
| StepNote e st :
    isNote e = true -> Step st (emit e st).

(** How a later state relates to an earlier one. *)
Record Grows (st st' : Crawler) : Prop := {
  grows_visited : visitedUrls st ⊆ visitedUrls st';
  grows_trace : exists evs : list Event,
    trace st' = (trace st ++ evs)%list /\
    size (visitedUrls st') = (size (visitedUrls st) + length (crawled evs))%nat;
  grows_bound : (visitedSize st' <= Z.max (visitedSize st) maxPages)%Z;
  grows_browser : browser st' = browser st
}.

End Steps.

(** [b] occurs in [tr] only after an [a]. *)
Definition precededBy (a b : Event) (tr : list Event) : Prop :=
  forall l1 l2 : list Event, tr = (l1 ++ b :: l2)%list -> a ∈ l1.

(** The bookkeeping of a crawler agrees with its trace. *)
Record Consistent (st : Crawler) : Prop := {
  cons_visited : forall u, u ∈ visitedUrls st <-> u ∈ crawled (trace st);
  cons_crawled : NoDup (crawled (trace st));
  cons_navigated : NoDup (navigated (trace st));
  cons_saveCalls : NoDup (saveCalls (trace st));
  cons_goto : forall u, precededBy (LogCrawling u) (CallGoto u) (trace st);
  cons_save : forall u, precededBy (CallGoto u) (CallSaveToFile u) (trace st);
  cons_count : pageCount st = savedCount (trace st)
}.

(** The state in which a call of [crawl] ended, when it ended. *)
Definition finalState (o : Outcome) : option Crawler :=
  match o with
  | Resolved st | Rejected st => Some st
  | Diverged => None
  end.

(** [P] holds of the state in which the call ended, and the call ended. *)
Definition endsWith (o : Outcome) (P : Crawler -> Prop) : Prop :=
  match o with
  | Resolved st | Rejected st => P st
  | Diverged => False
  end.

(** ** Scenarios *)

Module Scenario.

(** A document whose body holds [text] and whose anchors carry [hrefs]. *)
Definition textPage (text : string) (hrefs : list string) : Page :=
  {| queryText := fun sel => if String.eqb sel "body" then Some text else None;
     bodyText := Some text;
     anchorHrefs := List.map Some hrefs |}.

(** A renderer serving the given pages and failing on every other URL. *)
Fixpoint serve (pages : list (string * Page)) (url : string) : option Page :=
  match pages with
  | [] => None
  | (u, pg) :: rest => if String.eqb url u then Some pg else serve rest url
  end.

(** A healthy browser and file system around a renderer. *)
Definition world (render : string -> option Page) : Env :=
  {| launch := true; newPage := true;
     urlOrigin := UrlDouble.origin; urlResolve := UrlDouble.resolve;
     goto := render; writeFile := fun _ _ => true |}.

Definition seed : string := "https://example.test/".
Definition origin : string := "https://example.test".

(** [/] links to [/a] and [/b]; [/a] links to [/] and [/c]. *)
Definition budgetSite : list (string * Page) :=
  [ ("https://example.test/", textPage "home" ["/a"; "/b"]);
    ("https://example.test/a", textPage "page a" ["/"; "/c"]);
    ("https://example.test/b", textPage "page b" []);
    ("https://example.test/c", textPage "page c" []) ].

(** A -> B -> A. *)
Definition cycleSite : list (string * Page) :=
  [ ("https://example.test/", textPage "A" ["/b"]);
    ("https://example.test/b", textPage "B" ["/"]) ].

(** The home page links to a host that merely extends the seed's. *)
Definition lookalikeSite : list (string * Page) :=
  [ ("https://example.test/",
     textPage "home" ["https://example.test.evil.com/x"]);
    ("https://example.test.evil.com/x", textPage "elsewhere" []) ].

(** The home page carries one anchor that [URL] cannot parse before a
    sound one. *)
Definition malformedSite : list (string * Page) :=
  [ ("https://example.test/", textPage "home" ["//"; "/a"]);
    ("https://example.test/a", textPage "page a" []) ].

(** The same site without the unparsable anchor. *)
Definition wellFormedSite : list (string * Page) :=
  [ ("https://example.test/", textPage "home" ["/a"]);
    ("https://example.test/a", textPage "page a" []) ].

(** One document under three spellings, and a same-page anchor. *)
Definition aliasSite : list (string * Page) :=
  [ ("https://example.test/",
     textPage "home" ["https://example.test/page";
                      "https://example.test/page#sec";
                      "https://example.test/page/";
                      "#sec";
                      "https://example.test/page"]);
    ("https://example.test/page", textPage "doc" []);
    ("https://example.test/page#sec", textPage "doc" []);
    ("https://example.test/page/", textPage "doc" []) ].

(** [/] links to [/x] and [/y]; [/x] does not render. *)
Definition brokenSite : list (string * Page) :=
  [ ("https://example.test/", textPage "home" ["/x"; "/y"]);
    ("https://example.test/y", textPage "page y" []) ].

(** A browser whose [newPage] fails. *)
Definition noPageWorld : Env :=
  {| launch := true; newPage := false;
     urlOrigin := UrlDouble.origin; urlResolve := UrlDouble.resolve;
     goto := serve budgetSite; writeFile := fun _ _ => true |}.

(** A file system that refuses the artifact of [/a]. *)
Definition readOnlyWorld : Env :=
  {| launch := true; newPage := true;
     urlOrigin := UrlDouble.origin; urlResolve := UrlDouble.resolve;
     goto := serve budgetSite;
     writeFile := fun p _ => negb (String.eqb p "output/example_test_a.txt") |}.

End Scenario.

(** ** Vocabulary for the further properties *)

(** Characters of a file name stem: lower-case letters, digits, underscore. *)
Definition isFileChar (c : ascii) : bool :=
  let n := nat_of_ascii c in
  ((48 <=? n) && (n <=? 57) || (97 <=? n) && (n <=? 122) || (n =? 95))%nat.

(** Two underscores in a row. *)
Fixpoint doubled (l : list ascii) : bool :=
  match l with
  | a :: (b :: _) as r => Ascii.eqb a "_" && Ascii.eqb b "_" || doubled r
  | _ => false
  end.

(** The href an anchor contributes to the result of [discoverLinks], if
    any: its value after the first [if], when the second [if] lets it in. *)
Definition candidate (env : Env) (baseUrl : string) (attr : option string)
  : option string :=
  match resolveHref env baseUrl attr with
  | Returned (Some h) => if nonEmpty h && startsWith h baseUrl then Some h else None
  | _ => None
  end.

Definition candidates (env : Env) (baseUrl : string)
  (anchors : list (option string)) : list string :=
  omap (candidate env baseUrl) anchors.

(** Where [saveToFile] writes the artifact of a URL, and what it writes. *)
Definition artifactPath (url : string) : string :=
  (outputDir ++ "/" ++ urlToFileName url)%string.
Definition artifactText (url content : string) : string :=
  ("URL: " ++ url ++ nl ++ nl ++ "Content:" ++ nl ++ trim content)%string.

(** The selector has no element, or an element without text. *)
Definition textless (pg : Page) (sel : string) : Prop :=
  queryText pg sel = None \/ queryText pg sel = Some ""%string.


(** The page at [u] loads and its text can be extracted. *)
Definition renders (env : Env) (u : string) : Prop :=
  exists pg content, goto env u = Some pg /\ extractContent pg = Returned content.

(** The page at [u] loads, its text can be extracted and its artifact can
    be written. *)
Definition written (env : Env) (u : string) : bool :=
  match goto env u with
  | Some pg =>
      match extractContent pg with
      | Returned content => writeFile env (artifactPath u) (artifactText u content)
      | Thrown => false
      end
  | None => false
  end.

(** Between two visits: every visited URL has been navigated to, and
    [saveToFile] has been called on exactly those that rendered. *)
Record Served (env : Env) (st : Crawler) : Prop := {
  served_goto : forall u, u ∈ visitedUrls st -> CallGoto u ∈ trace st;
  served_save : forall u,
    u ∈ visitedUrls st -> renders env u -> CallSaveToFile u ∈ trace st;
  served_only : forall u, CallSaveToFile u ∈ trace st -> renders env u
}.

(** Between two visits: [pageCount] is the number of admitted URLs whose
    artifact was written. *)
Definition Tallied (env : Env) (st : Crawler) : Prop :=
  pageCount st = length (List.filter (written env) (crawled (trace st))).

(** ** Vocabulary for uniqueness, termination and isolation *)

(** The URL that an event navigates to or hands to [saveToFile]. *)
Definition ioUrl (e : Event) : option string :=
  match e with
  | CallGoto u | CallSaveToFile u => Some u
  | _ => None
  end.

(** Each navigation and each call of [saveToFile] took place when its URL
    was in [visitedUrls]. *)
Definition Marked (st : Crawler) : Prop :=
  Forall2 (fun e V => forall u, ioUrl e = Some u -> u ∈ V) (trace st) (seen st).

(** From [st] to [st'] the visited URLs only grow, and every admission put
    a URL into [visitedUrls] that was not there. *)
Record Admits (st st' : Crawler) : Prop := {
  admits_visited : visitedUrls st ⊆ visitedUrls st';
  admits_new : exists evs : list Event,
    trace st' = (trace st ++ evs)%list /\
    forall u, u ∈ crawled evs -> u ∈ visitedUrls st' /\ u ∉ visitedUrls st
}.

(** From [st] to [st'] the counter does not go down and no file goes
    away. *)
Record Keeps (st st' : Crawler) : Prop := {
  keeps_count : (pageCount st <= pageCount st')%nat;
  keeps_files : forall p, is_Some (disk st !! p) -> is_Some (disk st' !! p)
}.

(** Between two visits, what each visited URL has left behind: a URL whose
    page rendered and whose write succeeded has its save announced and a file
    at its artifact path; a URL whose page did not render has its failure
    line; link discovery was announced for rendered pages only. *)
Record Settled (env : Env) (st : Crawler) : Prop := {
  settled_written : forall u pg content,
    u ∈ visitedUrls st -> goto env u = Some pg ->
    extractContent pg = Returned content ->
    writeFile env (artifactPath u) (artifactText u content) = true ->
    LogSaved (artifactPath u) ∈ trace st /\ is_Some (disk st !! artifactPath u);
  settled_failed : forall u,
    u ∈ visitedUrls st -> ~ renders env u -> LogCrawlFailed u ∈ trace st;
  settled_quiet : forall n u, LogDiscovered n u ∈ trace st -> renders env u
}.

(** The links that a visit of [u] goes through: those discovered on its
    page, when the page loads, yields a text and discovery returns. *)
Definition linksOf (env : Env) (baseUrl u : string) : option (list string) :=
  match goto env u with
  | Some pg =>
      match extractContent pg with
      | Returned _ =>
          match discoverLinks env baseUrl pg with
          | Returned links => Some links
          | Thrown => None
          end
      | Thrown => None
      end
  | None => None
  end.

(** [env] with the page [pg] served at [X]. *)
Definition withPage (env : Env) (X : string) (pg : Page) : Env :=
  {| launch := launch env; newPage := newPage env; urlOrigin := urlOrigin env;
     urlResolve := urlResolve env;
     goto := fun u => if String.eqb u X then Some pg else goto env u;
     writeFile := writeFile env |}.

(** Two crawlers that differ by what was saved for [X] only: the same
    visited URLs, the same navigations in the same order, the same calls of
    [saveToFile] but those on [X], the same files but at the artifact path
    of [X]. *)
Record Alike (X : string) (st st' : Crawler) : Prop := {
  alike_visited : visitedUrls st = visitedUrls st';
  alike_navigated : navigated (trace st) = navigated (trace st');
  alike_saveCalls :
    saveCalls (trace st) = filter (fun u => u <> X) (saveCalls (trace st'));
  alike_disk : forall p, p <> artifactPath X -> disk st !! p = disk st' !! p;
  alike_count : (pageCount st <= pageCount st')%nat
}.

(** * Properties *)

Local Open Scope list_scope.

(** ** Traces *)

Lemma crawled_app (a b : list Event) : crawled (a ++ b) = crawled a ++ crawled b.
Proof. apply omap_app. Qed.

Lemma navigated_app (a b : list Event) :
  navigated (a ++ b) = navigated a ++ navigated b.
Proof. apply omap_app. Qed.

Lemma saveCalls_app (a b : list Event) :
  saveCalls (a ++ b) = saveCalls a ++ saveCalls b.
Proof. apply omap_app. Qed.

Lemma savedCount_app (a b : list Event) :
  savedCount (a ++ b) = (savedCount a + savedCount b)%nat.
Proof. unfold savedCount. now rewrite List.filter_app, length_app. Qed.

Lemma crawled_elem (u : string) (tr : list Event) :
  u ∈ crawled tr <-> LogCrawling u ∈ tr.
Proof.
  unfold crawled. rewrite list_elem_of_omap. split.
  - intros [e [He Hu]]. destruct e; simpl in Hu; try discriminate.
    now inversion Hu; subst.
  - intros H. now exists (LogCrawling u).
Qed.

Lemma navigated_elem (u : string) (tr : list Event) :
  u ∈ navigated tr <-> CallGoto u ∈ tr.
Proof.
  unfold navigated. rewrite list_elem_of_omap. split.
  - intros [e [He Hu]]. destruct e; simpl in Hu; try discriminate.
    now inversion Hu; subst.
  - intros H. now exists (CallGoto u).
Qed.

Lemma saveCalls_elem (u : string) (tr : list Event) :
  u ∈ saveCalls tr <-> CallSaveToFile u ∈ tr.
Proof.
  unfold saveCalls. rewrite list_elem_of_omap. split.
  - intros [e [He Hu]]. destruct e; simpl in Hu; try discriminate.
    now inversion Hu; subst.
  - intros H. now exists (CallSaveToFile u).
Qed.

Lemma precededBy_nil (a b : Event) : precededBy a b [].
Proof. intros l1 l2 H. now destruct l1. Qed.

(** Appending an event keeps the order, provided that a new [b] finds its
    [a] in the trace. *)
Lemma precededBy_snoc (a b e : Event) (tr : list Event) :
  precededBy a b tr -> (e = b -> a ∈ tr) -> precededBy a b (tr ++ [e]).
Proof.
  intros Htr He l1 l2 Heq.
  destruct l2 as [|x l2 _] using rev_ind.
  - apply app_inj_tail in Heq as [-> ->]. now apply He.
  - change (l1 ++ b :: l2 ++ [x]) with (l1 ++ (b :: l2) ++ [x]) in Heq.
    rewrite app_assoc in Heq. apply app_inj_tail in Heq as [-> _].
    now apply (Htr l1 l2).
Qed.

(** An occurrence of [b] has its [a] somewhere in the trace. *)
Lemma precededBy_elem (a b : Event) (tr : list Event) :
  precededBy a b tr -> b ∈ tr -> a ∈ tr.
Proof.
  intros H Hb. apply list_elem_of_split in Hb as [l1 [l2 ->]].
  apply elem_of_app. left. now apply (H l1 l2).
Qed.

(** ** Single steps *)

Lemma skips_false (maxPages : Z) (url : string) (st : Crawler) :
  skips maxPages url st = false <->
  (visitedSize st < maxPages)%Z /\ url ∉ visitedUrls st.
Proof.
  unfold skips. rewrite orb_false_iff, bool_decide_eq_false.
  rewrite Z.geb_leb, Z.leb_gt. tauto.
Qed.

Lemma visitedSize_markVisited (url : string) (st : Crawler) :
  url ∉ visitedUrls st ->
  size (visitedUrls (markVisited url st)) = S (size (visitedUrls st)).
Proof.
  intros H. simpl. rewrite size_union by set_solver.
  now rewrite size_singleton.
Qed.

Lemma saveToFile_visited (env : Env) (url content : string) (st : Crawler) :
  visitedUrls (saveToFile env url content st) = visitedUrls st.
Proof. unfold saveToFile. now destruct (writeFile env _ _). Qed.

Lemma saveToFile_browser (env : Env) (url content : string) (st : Crawler) :
  browser (saveToFile env url content st) = browser st.
Proof. unfold saveToFile. now destruct (writeFile env _ _). Qed.

(** [saveToFile] adds its call and one console line to the trace. *)
Lemma saveToFile_trace (env : Env) (url content : string) (st : Crawler) :
  exists e, (e = LogSaveFailed url \/ exists p, e = LogSaved p) /\
    trace (saveToFile env url content st) = trace st ++ [CallSaveToFile url; e].
Proof.
  unfold saveToFile. destruct (writeFile env _ _); simpl.
  - eexists. split; [right; eexists; reflexivity|]. now rewrite <- app_assoc.
  - eexists. split; [left; reflexivity|]. now rewrite <- app_assoc.
Qed.

Lemma saveToFile_count (env : Env) (url content : string) (st : Crawler) :
  pageCount st = savedCount (trace st) ->
  pageCount (saveToFile env url content st)
  = savedCount (trace (saveToFile env url content st)).
Proof.
  intros H. unfold saveToFile. destruct (writeFile env _ _); simpl;
    rewrite !savedCount_app, <- H; unfold savedCount; simpl; lia.
Qed.

(** An event that is neither an admission, a navigation, a call of
    [saveToFile] nor a successful write leaves the bookkeeping as it is. *)
Lemma consistent_emit_plain (e : Event) (st : Crawler) :
  crawledUrl e = None -> gotoUrl e = None -> savedUrl e = None ->
  isSaved e = false -> Consistent st -> Consistent (emit e st).
Proof.
  intros He1 He2 He3 He4 [Hv Hc Hn Hs Hg Hsv Hcount].
  split; simpl.
  - intros u. rewrite crawled_app. simpl. rewrite He1. simpl.
    now rewrite app_nil_r.
  - rewrite crawled_app. simpl. rewrite He1. simpl. now rewrite app_nil_r.
  - rewrite navigated_app. simpl. rewrite He2. simpl. now rewrite app_nil_r.
  - rewrite saveCalls_app. simpl. rewrite He3. simpl. now rewrite app_nil_r.
  - intros u. apply precededBy_snoc; [done|]. intros ->. discriminate.
  - intros u. apply precededBy_snoc; [done|]. intros ->. discriminate.
  - rewrite savedCount_app, <- Hcount. unfold savedCount. simpl.
    rewrite He4. simpl. lia.
Qed.

Section StepFacts.
Variable env : Env.
Variable maxPages : Z.

Lemma step_consistent (st st' : Crawler) :
  Step env maxPages st st' -> Consistent st -> Consistent st'.
Proof.
  intros Hstep [Hv Hc Hn Hs Hg Hsv Hcount].
  destruct Hstep as [url st Hskip | url content st tr Htr | e st He].
  - apply skips_false in Hskip as [_ Hfresh].
    assert (Hnc : url ∉ crawled (trace st)) by now rewrite <- Hv.
    assert (Hnn : url ∉ navigated (trace st)).
    { rewrite navigated_elem. intros Hin. apply Hnc, crawled_elem.
      now apply (precededBy_elem _ _ _ (Hg url)). }
    split; simpl.
    + intros u. rewrite !crawled_app, elem_of_union, elem_of_singleton.
      simpl. rewrite app_nil_r, elem_of_app, list_elem_of_singleton, Hv. tauto.
    + rewrite !crawled_app. simpl. rewrite app_nil_r.
      apply NoDup_app. split; [done|]. split; [|apply NoDup_singleton].
      intros x Hx Hx'. apply list_elem_of_singleton in Hx'. now subst.
    + rewrite !navigated_app. simpl. rewrite app_nil_r.
      apply NoDup_app. split; [done|]. split; [|apply NoDup_singleton].
      intros x Hx Hx'. apply list_elem_of_singleton in Hx'. now subst.
    + rewrite !saveCalls_app. simpl. now rewrite !app_nil_r.
    + intros u. apply precededBy_snoc; [apply precededBy_snoc; [done|discriminate]|].
      intros Heq. inversion Heq; subst. apply elem_of_app. right.
      now apply list_elem_of_singleton.
    + intros u. apply precededBy_snoc; [apply precededBy_snoc; [done|discriminate]|].
      discriminate.
    + rewrite !savedCount_app, <- Hcount. unfold savedCount. simpl. lia.
  - destruct (saveToFile_trace env url content st) as [e [He Htrace]].
    assert (Hnote : crawledUrl e = None /\ gotoUrl e = None /\ savedUrl e = None).
    { destruct He as [-> | [p ->]]; now simpl. }
    destruct Hnote as [He1 [He2 He3]].
    assert (Hns : url ∉ saveCalls (trace st)).
    { rewrite saveCalls_elem, Htr. intros Hin.
      apply elem_of_app in Hin as [Hin | Hin];
        [|apply list_elem_of_singleton in Hin; discriminate].
      apply list_elem_of_split in Hin as [l1 [l2 Hsplit]].
      assert (Hgo : CallGoto url ∈ l1).
      { apply (Hsv url l1 (l2 ++ [CallGoto url])).
        rewrite Htr, Hsplit. now rewrite <- app_assoc. }
      rewrite Htr, Hsplit, !navigated_app in Hn. simpl in Hn.
      apply NoDup_app in Hn as [_ [Hdisj _]].
      apply (Hdisj url).
      - apply elem_of_app. left. now apply navigated_elem.
      - now apply list_elem_of_singleton. }
    split.
    + intros u. rewrite saveToFile_visited, Htrace, crawled_app. simpl.
      rewrite He1. simpl. now rewrite app_nil_r.
    + rewrite Htrace, crawled_app. simpl. rewrite He1. simpl.
      now rewrite app_nil_r.
    + rewrite Htrace, navigated_app. simpl. rewrite He2. simpl.
      now rewrite app_nil_r.
    + rewrite Htrace, saveCalls_app. simpl. rewrite He3. simpl.
      apply NoDup_app. split; [done|]. split; [|apply NoDup_singleton].
      intros x Hx Hx'. apply list_elem_of_singleton in Hx'. now subst.
    + intros u. rewrite Htrace.
      change [CallSaveToFile url; e] with ([CallSaveToFile url] ++ [e]).
      rewrite app_assoc.
      apply precededBy_snoc; [apply precededBy_snoc; [done|discriminate]|].
      destruct He as [-> | [p ->]]; discriminate.
    + intros u. rewrite Htrace.
      change [CallSaveToFile url; e] with ([CallSaveToFile url] ++ [e]).
      rewrite app_assoc.
      apply precededBy_snoc; [apply precededBy_snoc; [done|]|].
      * intros Heq. inversion Heq; subst. rewrite Htr.
        apply elem_of_app. right. now apply list_elem_of_singleton.
      * destruct He as [-> | [p ->]]; discriminate.
    + now apply saveToFile_count.
  - apply consistent_emit_plain; [destruct e; try discriminate; now simpl..|].
  now split.
Qed.

End StepFacts.

(** ** Growth *)

Lemma beginVisit_size (url : string) (st : Crawler) :
  url ∉ visitedUrls st ->
  size (visitedUrls (beginVisit url st)) = S (size (visitedUrls st)).
Proof. apply (visitedSize_markVisited url (emit (LogCrawling url) st)). Qed.

Section GrowthFacts.
Variable env : Env.
Variable maxPages : Z.

Lemma grows_refl (st : Crawler) : Grows maxPages st st.
Proof.
  split; [done| |lia|done].
  exists []. rewrite app_nil_r. simpl. split; [done|lia].
Qed.

Lemma grows_trans (a b c : Crawler) :
  Grows maxPages a b -> Grows maxPages b c -> Grows maxPages a c.
Proof.
  intros [Hv1 [e1 [Ht1 Hs1]] Hb1 Hr1] [Hv2 [e2 [Ht2 Hs2]] Hb2 Hr2].
  split.
  - set_solver.
  - exists (e1 ++ e2). rewrite Ht2, Ht1, app_assoc. split; [done|].
    rewrite crawled_app, length_app. lia.
  - lia.
  - congruence.
Qed.

Lemma step_grows (st st' : Crawler) :
  Step env maxPages st st' -> Grows maxPages st st'.
Proof.
  intros [url s Hskip | url content s tr Htr | e s He].
  - apply skips_false in Hskip as [Hlt Hfresh].
    pose proof (beginVisit_size url s Hfresh) as Hsize.
    split.
    + simpl. set_solver.
    + exists [LogCrawling url; CallGoto url]. split.
      * simpl. now rewrite <- app_assoc.
      * rewrite Hsize. simpl. lia.
    + unfold visitedSize in *. rewrite Hsize. lia.
    + done.
  - destruct (saveToFile_trace env url content s) as [e [He Htrace]].
    split.
    + now rewrite saveToFile_visited.
    + exists [CallSaveToFile url; e]. split; [done|].
      rewrite saveToFile_visited.
      destruct He as [-> | [p ->]]; simpl; lia.
    + unfold visitedSize. rewrite saveToFile_visited. lia.
    + apply saveToFile_browser.
  - split; simpl.
    + done.
    + exists [e]. split; [done|].
      destruct e; try discriminate; simpl; lia.
    + unfold visitedSize. simpl. lia.
    + done.
Qed.

Lemma steps_grows (st st' : Crawler) :
  rtc (Step env maxPages) st st' -> Grows maxPages st st'.
Proof.
  induction 1 as [|a b c Hab _ IH]; [apply grows_refl|].
  apply (grows_trans a b c); [now apply step_grows|exact IH].
Qed.

Lemma steps_consistent (st st' : Crawler) :
  rtc (Step env maxPages) st st' -> Consistent st -> Consistent st'.
Proof.
  induction 1 as [|a b c Hab _ IH]; [done|].
  intros Ha. apply IH. now apply (step_consistent env maxPages a b).
Qed.

Lemma grows_size (st st' : Crawler) :
  Grows maxPages st st' -> (visitedSize st <= visitedSize st')%Z.
Proof.
  intros [_ [evs [_ Hs]] _ _]. unfold visitedSize. lia.
Qed.

End GrowthFacts.

(** ** Runs of [crawlPage] *)

Section RunFacts.
Variable env : Env.
Variable baseUrl : string.
Variable maxPages : Z.

Local Abbreviation visit := (crawlPage env baseUrl maxPages).
Local Abbreviation loop := (forLinks maxPages).
Local Abbreviation steps := (rtc (Step env maxPages)).

Lemma forLinks_steps (v : string -> Crawler -> Run) (links : list string) :
  (forall url st st', v url st = Done st' -> steps st st') ->
  forall st st', loop v links st = Done st' -> steps st st'.
Proof.
  intros Hv. induction links as [|link rest IH]; intros st st' Hrun; simpl in Hrun.
  - inversion Hrun; subst. apply rtc_refl.
  - destruct (visitedSize st <? maxPages)%Z.
    + destruct (v link st) as [st1|] eqn:Hlink; [|discriminate].
      apply rtc_trans with st1; [now apply (Hv link st)|now apply IH].
    + inversion Hrun; subst. apply rtc_refl.
Qed.

(** A run of [crawlPage] is a sequence of steps. *)
Lemma crawlPage_steps (fuel : nat) :
  forall url st st', visit fuel url st = Done st' -> steps st st'.
Proof.
  induction fuel as [|fuel IH]; intros url st st' Hrun; simpl in Hrun;
    [discriminate|].
  destruct (skips maxPages url st) eqn:Hskip.
  { inversion Hrun; subst. apply rtc_refl. }
  apply rtc_l with (beginVisit url st); [now apply StepBegin|].
  fold (beginVisit url st) in Hrun.
  assert (Hfail : Step env maxPages (beginVisit url st)
                    (emit (LogCrawlFailed url) (beginVisit url st)))
    by now apply StepNote.
  destruct (goto env url) as [pg|].
  2:{ inversion Hrun; subst. now apply rtc_once. }
  destruct (extractContent pg) as [content|].
  2:{ inversion Hrun; subst. now apply rtc_once. }
  apply rtc_l with (saveToFile env url content (beginVisit url st)).
  { now apply StepSave with (tr := trace (markVisited url (emit (LogCrawling url) st))). }
  destruct (discoverLinks env baseUrl pg) as [links|].
  2:{ inversion Hrun; subst. apply rtc_once. now apply StepNote. }
  eapply rtc_l; [apply (StepNote env maxPages (LogDiscovered (length links) url)); done|].
  now apply (forLinks_steps (visit fuel) links IH).
Qed.

Lemma crawlPage_grows (fuel : nat) (url : string) (st st' : Crawler) :
  visit fuel url st = Done st' -> Grows maxPages st st'.
Proof. intros H. eapply steps_grows, crawlPage_steps, H. Qed.

Lemma crawlPage_consistent (fuel : nat) (url : string) (st st' : Crawler) :
  visit fuel url st = Done st' -> Consistent st -> Consistent st'.
Proof. intros H. eapply steps_consistent, crawlPage_steps, H. Qed.

(** A call on a visited URL or on a spent budget changes nothing. *)
Lemma crawlPage_skip (fuel : nat) (url : string) (st : Crawler) :
  skips maxPages url st = true -> visit (S fuel) url st = Done st.
Proof. intros H. simpl. now rewrite H. Qed.

(** ** Termination *)

Lemma forLinks_total (v : string -> Crawler -> Run) (floor : Z)
  (links : list string) :
  (forall url st, (floor <= visitedSize st < maxPages)%Z ->
     exists st', v url st = Done st') ->
  (forall url st st', v url st = Done st' ->
     (visitedSize st <= visitedSize st')%Z) ->
  forall st, (floor <= visitedSize st)%Z -> exists st', loop v links st = Done st'.
Proof.
  intros Hv Hmono. induction links as [|link rest IH]; intros st Hfloor; simpl.
  - now exists st.
  - destruct (visitedSize st <? maxPages)%Z eqn:Hlt; [|now exists st].
    apply Z.ltb_lt in Hlt.
    destruct (Hv link st) as [st1 Hst1]; [lia|]. rewrite Hst1.
    apply IH. apply Hmono in Hst1. lia.
Qed.

(** With a depth allowance above [depthLeft], [crawlPage] returns. *)
Lemma crawlPage_total (fuel : nat) :
  forall url st, (depthLeft maxPages st < fuel)%nat -> exists st', visit fuel url st = Done st'.
Proof.
  induction fuel as [|fuel IH]; intros url st Hfuel; [lia|]. simpl.
  destruct (skips maxPages url st) eqn:Hskip; [now exists st|].
  apply skips_false in Hskip as [Hlt Hfresh].
  fold (beginVisit url st).
  destruct (goto env url) as [pg|]; [|eauto].
  destruct (extractContent pg) as [content|]; [|eauto].
  destruct (discoverLinks env baseUrl pg) as [links|]; [|eauto].
  apply forLinks_total with (floor := (visitedSize st + 1)%Z).
  - intros u s Hs. apply IH. unfold depthLeft in *. lia.
  - intros u s s' Hrun. eapply grows_size, crawlPage_grows, Hrun.
  - unfold visitedSize. simpl. rewrite saveToFile_visited.
    rewrite (beginVisit_size url st Hfresh). lia.
Qed.

Lemma forLinks_more (v1 v2 : string -> Crawler -> Run) (links : list string) :
  (forall url st st', v1 url st = Done st' -> v2 url st = Done st') ->
  forall st st', loop v1 links st = Done st' -> loop v2 links st = Done st'.
Proof.
  intros Hv. induction links as [|link rest IH]; intros st st' Hrun; simpl in *;
    [done|].
  destruct (visitedSize st <? maxPages)%Z; [|done].
  destruct (v1 link st) as [st1|] eqn:H1; [|discriminate].
  rewrite (Hv _ _ _ H1). now apply IH.
Qed.

(** A larger allowance does not change the result. *)
Lemma crawlPage_more (fuel fuel' : nat) :
  (fuel <= fuel')%nat ->
  forall url st st', visit fuel url st = Done st' -> visit fuel' url st = Done st'.
Proof.
  revert fuel'. induction fuel as [|fuel IH]; intros fuel' Hle url st st' Hrun;
    [discriminate|].
  destruct fuel' as [|fuel']; [lia|]. simpl in *.
  destruct (skips maxPages url st); [done|].
  destruct (goto env url) as [pg|]; [|done].
  destruct (extractContent pg) as [content|]; [|done].
  destruct (discoverLinks env baseUrl pg) as [links|]; [|done].
  eapply forLinks_more; [|exact Hrun].
  apply IH. lia.
Qed.

End RunFacts.

(** ** Runs of [crawl] *)

Lemma crawlFuel_enough (maxPages : Z) (st : Crawler) :
  (depthLeft maxPages st < crawlFuel maxPages)%nat.
Proof. unfold depthLeft, crawlFuel, visitedSize. lia. Qed.

(** [crawl] ends, in one of three ways. *)
Lemma crawl_ends (env : Env) (startUrl : string) (maxPages : Z) (st : Crawler)
  (P : Crawler -> Prop) :
  P st ->
  P (setBrowser BrowserOpen st) ->
  (forall baseUrl st',
     crawlPage env baseUrl maxPages (crawlFuel maxPages) startUrl
       (setBrowser BrowserOpen st) = Done st' ->
     P (emit (LogCompleted (pageCount st')) (setBrowser BrowserClosed st'))) ->
  endsWith (crawl env startUrl maxPages st) P.
Proof.
  intros H0 H1 H2. unfold crawl.
  destruct (launch env); [|done]. destruct (newPage env); [|done].
  destruct (urlOrigin env startUrl) as [baseUrl|]; [|done].
  destruct (crawlPage_total env baseUrl maxPages (crawlFuel maxPages) startUrl
              (setBrowser BrowserOpen st)) as [st' Hst'];
    [apply crawlFuel_enough|].
  rewrite Hst'. simpl. now apply (H2 baseUrl).
Qed.

Lemma consistent_new : Consistent newCrawler.
Proof.
  split; simpl; try apply NoDup_nil_2; try done.
  - intros u. split; intros H; [set_solver|inversion H].
  - intros u. apply precededBy_nil.
  - intros u. apply precededBy_nil.
Qed.

Lemma consistent_setBrowser (b : BrowserState) (st : Crawler) :
  Consistent st -> Consistent (setBrowser b st).
Proof. intros [Hv Hc Hn Hs Hg Hsv Hcount]. now split. Qed.

(** A crawler that was consistent before [crawl] is consistent after it. *)
Lemma crawl_consistent (env : Env) (startUrl : string) (maxPages : Z) (st : Crawler) :
  Consistent st -> endsWith (crawl env startUrl maxPages st) Consistent.
Proof.
  intros Hst. apply crawl_ends; [done|now apply consistent_setBrowser|].
  intros baseUrl st' Hrun.
  apply consistent_emit_plain; try done.
  apply consistent_setBrowser.
  eapply crawlPage_consistent; [exact Hrun|now apply consistent_setBrowser].
Qed.

(** [crawl] never exhausts the recursion depth it grants. *)
Lemma crawl_never_diverges (env : Env) (startUrl : string) (maxPages : Z)
  (st : Crawler) :
  crawl env startUrl maxPages st <> Diverged.
Proof.
  pose proof (crawl_ends env startUrl maxPages st (fun _ => True) I I
                (fun _ _ _ => I)) as H.
  intros Heq. now rewrite Heq in H.
Qed.

Lemma endsWith_impl (o : Outcome) (P Q : Crawler -> Prop) :
  (forall st, P st -> Q st) -> endsWith o P -> endsWith o Q.
Proof. intros H. destruct o; simpl; auto. Qed.

(** ** The page budget *)

Lemma size_new : size (visitedUrls newCrawler) = 0%nat.
Proof. apply size_empty. Qed.

Lemma visitedSize_new : visitedSize newCrawler = 0%Z.
Proof. unfold visitedSize. now rewrite size_new. Qed.

(** C3. With a budget [maxPages = N >= 0], a crawl started on a new crawler
    ends with at most [N] URLs in [visitedUrls], and at most [N] insertions
    took place (each one is announced by its console line).  Along any run of
    [crawlPage] the set only grows, an insertion never takes its size above
    [N], and from a state whose size is not strictly below [N] nothing is
    inserted at all. *)
Theorem budget_respected (env : Env) (startUrl : string) (N : Z) :
  (0 <= N)%Z ->
  endsWith (crawl env startUrl N newCrawler)
    (fun st => (visitedSize st <= N)%Z /\
               (Z.of_nat (length (crawled (trace st))) <= N)%Z)
  /\ (forall baseUrl fuel url st st',
        crawlPage env baseUrl N fuel url st = Done st' ->
        visitedUrls st ⊆ visitedUrls st' /\
        (visitedSize st' <= Z.max (visitedSize st) N)%Z /\
        ((N <= visitedSize st)%Z -> st' = st)).
Proof.
  intros HN. split.
  - apply crawl_ends.
    + rewrite visitedSize_new. simpl. lia.
    + change (visitedSize (setBrowser BrowserOpen newCrawler))
        with (visitedSize newCrawler).
      rewrite visitedSize_new. simpl. lia.
    + intros baseUrl st' Hrun.
      apply crawlPage_grows in Hrun as [_ [evs [Htr Hsize]] Hbound _].
      change (visitedSize (setBrowser BrowserOpen newCrawler))
        with (visitedSize newCrawler) in Hbound.
      rewrite visitedSize_new in Hbound.
      change (size (visitedUrls (setBrowser BrowserOpen newCrawler)))
        with (size (visitedUrls newCrawler)) in Hsize.
      rewrite size_new in Hsize.
      change (visitedSize (emit (LogCompleted (pageCount st'))
                             (setBrowser BrowserClosed st')))
        with (visitedSize st').
      change (trace (emit (LogCompleted (pageCount st'))
                       (setBrowser BrowserClosed st')))
        with (trace st' ++ [LogCompleted (pageCount st')]).
      rewrite Htr, !crawled_app. simpl. rewrite app_nil_r.
      unfold visitedSize in *. lia.
  - intros baseUrl fuel url st st' Hrun.
    pose proof (crawlPage_grows _ _ _ _ _ _ _ Hrun) as [Hsub _ Hbound _].
    repeat split; [done|done|].
    intros Hfull. destruct fuel as [|fuel]; [discriminate|].
    rewrite crawlPage_skip in Hrun; [now inversion Hrun|].
    unfold skips. apply orb_true_iff. left. rewrite Z.geb_leb. now apply Z.leb_le.
Qed.

(** The cycle A -> B -> A under a budget of 5. *)
Lemma budget_respected_witness :
  (0 <= 5)%Z /\
  endsWith (crawl (Scenario.world (Scenario.serve Scenario.cycleSite))
              Scenario.seed 5 newCrawler)
    (fun st => (visitedSize st <= 5)%Z /\
               (Z.of_nat (length (crawled (trace st))) <= 5)%Z).
Proof.
  split; [lia|].
  refine (proj1 (budget_respected
                   (Scenario.world (Scenario.serve Scenario.cycleSite))
                   Scenario.seed 5 _)).
  lia.
Defined.

(** ** Failures of a single page *)

(** One turn of the loop over the links. *)
Lemma forLinks_cons (N : Z) (visit : string -> Crawler -> Run) (link : string)
  (rest : list string) (st : Crawler) :
  forLinks N visit (link :: rest) st
  = if (visitedSize st <? N)%Z
    then match visit link st with
         | Done st' => forLinks N visit rest st'
         | OutOfFuel => OutOfFuel
         end
    else Done st.
Proof. reflexivity. Qed.

(** What a visit does once the page has rendered and its text is extracted. *)
Lemma crawlPage_rendered (env : Env) (baseUrl : string) (N : Z) (fuel : nat)
  (url : string) (st : Crawler) (pg : Page) (content : string) :
  skips N url st = false ->
  goto env url = Some pg ->
  extractContent pg = Returned content ->
  crawlPage env baseUrl N (S fuel) url st
  = match discoverLinks env baseUrl pg with
    | Returned links =>
        forLinks N (crawlPage env baseUrl N fuel) links
          (emit (LogDiscovered (length links) url)
             (saveToFile env url content (beginVisit url st)))
    | Thrown =>
        Done (emit (LogCrawlFailed url)
                (saveToFile env url content (beginVisit url st)))
    end.
Proof. intros Hskip Hgoto Hext. simpl. now rewrite Hskip, Hgoto, Hext. Qed.

(** After the save, a visit only takes steps. *)
Lemma crawlPage_after_save_steps (env : Env) (baseUrl : string) (N : Z)
  (fuel : nat) (url : string) (st st' : Crawler) (pg : Page) (content : string) :
  skips N url st = false ->
  goto env url = Some pg ->
  extractContent pg = Returned content ->
  crawlPage env baseUrl N (S fuel) url st = Done st' ->
  rtc (Step env N) (saveToFile env url content (beginVisit url st)) st'.
Proof.
  intros Hskip Hgoto Hext Hrun.
  rewrite (crawlPage_rendered _ _ _ _ _ _ pg content Hskip Hgoto Hext) in Hrun.
  destruct (discoverLinks env baseUrl pg) as [links|].
  - eapply rtc_l; [apply (StepNote env N (LogDiscovered (length links) url)); done|].
    apply (forLinks_steps env N (crawlPage env baseUrl N fuel) links); [|exact Hrun].
    apply crawlPage_steps.
  - inversion Hrun; subst. apply rtc_once. now apply StepNote.
Qed.

(** After the save, a visit only moves forward. *)
Lemma crawlPage_after_save (env : Env) (baseUrl : string) (N : Z) (fuel : nat)
  (url : string) (st st' : Crawler) (pg : Page) (content : string) :
  skips N url st = false ->
  goto env url = Some pg ->
  extractContent pg = Returned content ->
  crawlPage env baseUrl N (S fuel) url st = Done st' ->
  Grows N (saveToFile env url content (beginVisit url st)) st'.
Proof.
  intros Hskip Hgoto Hext Hrun. apply (steps_grows env).
  now apply (crawlPage_after_save_steps env baseUrl N fuel url st st' pg content).
Qed.

Lemma grows_trace_elem (N : Z) (st st' : Crawler) (e : Event) :
  Grows N st st' -> e ∈ trace st -> e ∈ trace st'.
Proof.
  intros [_ [evs [Htr _]] _ _] He. rewrite Htr. apply elem_of_app. now left.
Qed.

(** ** Failures of a write *)

Lemma crawl_resolved (env : Env) (startUrl : string) (N : Z) (st0 st : Crawler) :
  crawl env startUrl N st0 = Resolved st ->
  exists baseUrl st',
    crawlPage env baseUrl N (crawlFuel N) startUrl (setBrowser BrowserOpen st0)
    = Done st' /\
    st = emit (LogCompleted (pageCount st')) (setBrowser BrowserClosed st').
Proof.
  unfold crawl. destruct (launch env); [|discriminate].
  destruct (newPage env); [|discriminate].
  destruct (urlOrigin env startUrl) as [baseUrl|]; [|discriminate].
  destruct (crawlPage env baseUrl N (crawlFuel N) startUrl _) as [st'|] eqn:Hrun;
    [|discriminate].
  intros H. inversion H; subst. now exists baseUrl, st'.
Qed.


(** ** The budget scenario *)

(** C2 as stated fails.  Seed [/], budget 3, [/] -> [/a], [/b] and
    [/a] -> [/], [/c]: the visited set is not [{/, /a, /b}], for [/b] is not
    in it. *)
Lemma budget_scenario_not_a_b :
  visitedUrls <$> finalState
    (crawl (Scenario.world (Scenario.serve Scenario.budgetSite))
       Scenario.seed 3 newCrawler)
  <> Some (list_to_set ["https://example.test/"; "https://example.test/a";
                        "https://example.test/b"]).
Proof.
  intros H.
  apply (f_equal (fun o : option (gset string) =>
                    match o with
                    | Some s => bool_decide ("https://example.test/b" ∈ s)
                    | None => true
                    end)) in H.
  vm_compute in H. discriminate H.
Qed.

(** C2 (amended). In the scenario the crawl visits [/], then [/a], then [/c]:
    the recursion into [/a] admits [/c] while the size of [visitedUrls] is
    still 2, and the loop over the links of [/] then finds the budget spent
    before [/b].  Three artifacts are written, one per visited URL. *)
Theorem budget_scenario_depth_first :
  let o := crawl (Scenario.world (Scenario.serve Scenario.budgetSite))
             Scenario.seed 3 newCrawler in
  visitedUrls <$> finalState o
  = Some (list_to_set ["https://example.test/"; "https://example.test/a";
                       "https://example.test/c"]) /\
  (fun st => navigated (trace st)) <$> finalState o
  = Some ["https://example.test/"; "https://example.test/a";
          "https://example.test/c"] /\
  (fun st => saveCalls (trace st)) <$> finalState o
  = Some ["https://example.test/"; "https://example.test/a";
          "https://example.test/c"] /\
  (fun st => dom (disk st)) <$> finalState o
  = Some (list_to_set ["output/example_test_.txt"; "output/example_test_a.txt";
                       "output/example_test_c.txt"]) /\
  (fun st => size (disk st)) <$> finalState o = Some 3%nat /\
  pageCount <$> finalState o = Some 3%nat.
Proof. cbv zeta. repeat apply conj; vm_compute; reflexivity. Qed.

(** ** Scope of the crawl *)

(** C1. The scope test of [discoverLinks] is [href.startsWith(baseUrl)] on
    strings, so an absolute href whose host merely extends the seed's host
    passes it.  Seed [https://example.test/], one anchor to
    [https://example.test.evil.com/x]: the two origins differ, the link is
    returned by [discoverLinks], and the crawl navigates to it and writes its
    artifact. *)
Theorem lookalike_host_is_crawled :
  let env := Scenario.world (Scenario.serve Scenario.lookalikeSite) in
  let o := crawl env Scenario.seed 10 newCrawler in
  urlOrigin env Scenario.seed = Some "https://example.test"%string /\
  urlOrigin env "https://example.test.evil.com/x"
  = Some "https://example.test.evil.com"%string /\
  discoverLinks env "https://example.test"
    (Scenario.textPage "home" ["https://example.test.evil.com/x"%string])
  = Returned ["https://example.test.evil.com/x"%string] /\
  (fun st => navigated (trace st)) <$> finalState o
  = Some ["https://example.test/"; "https://example.test.evil.com/x"]%string /\
  (fun st => saveCalls (trace st)) <$> finalState o
  = Some ["https://example.test/"; "https://example.test.evil.com/x"]%string /\
  (fun st => disk st !! "output/example_test_evil_com_x.txt"%string)
    <$> finalState o
  = Some (Some ("URL: https://example.test.evil.com/x" ++ nl ++ nl ++
                "Content:" ++ nl ++ "elsewhere")%string).
Proof. cbv zeta. repeat apply conj; vm_compute; reflexivity. Qed.

(** ** Release of the browser *)

(** C8. [crawl] closes the browser after [crawlPage] has returned, and only
    there: when [browser.newPage()] throws, or [new URL(startUrl)] does, the
    call is rejected with the browser launched and still open.  A call that
    resolves has closed it. *)
Theorem browser_left_open_on_failure
  (origin : string -> option string) (resolve : string -> string -> option string)
  (render : string -> option Page) (write : string -> string -> bool)
  (startUrl : string) (N : Z) (st : Crawler) :
  crawl {| launch := true; newPage := false; urlOrigin := origin;
           urlResolve := resolve; goto := render; writeFile := write |}
    startUrl N st
  = Rejected (setBrowser BrowserOpen st) /\
  crawl {| launch := true; newPage := true; urlOrigin := fun _ => None;
           urlResolve := resolve; goto := render; writeFile := write |}
    startUrl N st
  = Rejected (setBrowser BrowserOpen st) /\
  browser (setBrowser BrowserOpen st) = BrowserOpen /\
  (forall env st', crawl env startUrl N st = Resolved st' ->
                   browser st' = BrowserClosed).
Proof.
  repeat apply conj; try reflexivity.
  intros env st' H. apply crawl_resolved in H as [baseUrl [st1 [_ ->]]].
  reflexivity.
Qed.

(** ** Malformed hrefs *)

(** An href that [URL] cannot resolve makes the whole of [forEachAnchor]
    throw, whatever stands before or after it. *)
Lemma forEachAnchor_throws (env : Env) (baseUrl href : string)
  (before after : list (option string)) (links : list string) :
  nonEmpty href && negb (startsWith href "http") && negb (startsWith href "#")
  = true ->
  urlResolve env href baseUrl = None ->
  forEachAnchor env baseUrl (before ++ Some href :: after) links = Thrown.
Proof.
  intros Hrel Hfail. revert links.
  induction before as [|attr before IH]; intros links; simpl.
  - now rewrite Hrel, Hfail.
  - destruct (resolveHref env baseUrl attr); [apply IH|reflexivity].
Qed.

(** C9. [discoverLinks] has no handler around [new URL(href, baseUrl)]: on
    a page whose anchors are [//] and [/a] the constructor throws for [//]
    and the evaluation throws with it, although [/a] alone is discovered.
    The exception reaches the [catch] of [crawlPage] after the page is saved:
    none of its links is followed, and [/a] is not visited, while the same
    site without the [//] anchor has [/a] visited. *)
Theorem malformed_href_aborts_discovery :
  let env := Scenario.world (Scenario.serve Scenario.malformedSite) in
  let env' := Scenario.world (Scenario.serve Scenario.wellFormedSite) in
  urlResolve env "//" Scenario.origin = None /\
  discoverLinks env Scenario.origin (Scenario.textPage "home" ["//"; "/a"]%string)
  = Thrown /\
  discoverLinks env Scenario.origin (Scenario.textPage "home" ["/a"%string])
  = Returned ["https://example.test/a"%string] /\
  trace <$> finalState (crawl env Scenario.seed 10 newCrawler)
  = Some [LogCrawling "https://example.test/";
          CallGoto "https://example.test/";
          CallSaveToFile "https://example.test/";
          LogSaved "output/example_test_.txt";
          LogCrawlFailed "https://example.test/";
          LogCompleted 1] /\
  (fun st => navigated (trace st))
    <$> finalState (crawl env' Scenario.seed 10 newCrawler)
  = Some ["https://example.test/"; "https://example.test/a"]%string.
Proof. cbv zeta. repeat apply conj; vm_compute; reflexivity. Qed.

(** ** URLs are compared as strings *)

(** C10. The home page of the scenario links to [/page], [/page#sec] and
    [/page/] by absolute hrefs, to [#sec], and to [/page] once more.
    [discoverLinks] returns the three spellings (the repeated one once, the
    fragment-only one not at all); with budget to spare each is admitted and
    navigated to, so that four URLs are visited; with a budget of 3 the third
    spelling no longer fits.  An href whose first character is [#] is never
    resolved and never in scope of an http(s) origin. *)
Theorem aliases_are_distinct_visits :
  let env := Scenario.world (Scenario.serve Scenario.aliasSite) in
  discoverLinks env Scenario.origin
    (Scenario.textPage "home"
       ["https://example.test/page"; "https://example.test/page#sec";
        "https://example.test/page/"; "#sec"; "https://example.test/page"]%string)
  = Returned ["https://example.test/page"; "https://example.test/page#sec";
              "https://example.test/page/"]%string /\
  (fun st => navigated (trace st))
    <$> finalState (crawl env Scenario.seed 10 newCrawler)
  = Some ["https://example.test/"; "https://example.test/page";
          "https://example.test/page#sec"; "https://example.test/page/"]%string /\
  visitedSize <$> finalState (crawl env Scenario.seed 10 newCrawler) = Some 4%Z /\
  (fun st => navigated (trace st))
    <$> finalState (crawl env Scenario.seed 3 newCrawler)
  = Some ["https://example.test/"; "https://example.test/page";
          "https://example.test/page#sec"]%string /\
  (forall (e : Env) (h : string) (links : list string),
     resolveHref e Scenario.origin (Some (String "#" h))
     = Returned (Some (String "#" h)) /\
     addIfInScope Scenario.origin (Some (String "#" h)) links = links).
Proof.
  cbv zeta. repeat apply conj; try (vm_compute; reflexivity).
  intros e h links. split; [|reflexivity].
  unfold resolveHref. simpl. now destruct h.
Qed.

(** ** What [discoverLinks] returns *)

Lemma setAdd_elem (links : list string) (href u : string) :
  u ∈ setAdd links href <-> u ∈ links \/ u = href.
Proof.
  unfold setAdd. case_bool_decide as Hin.
  - split; [now left|]. intros [H | ->]; done.
  - rewrite elem_of_app, list_elem_of_singleton. tauto.
Qed.

Lemma setAdd_NoDup (links : list string) (href : string) :
  NoDup links -> NoDup (setAdd links href).
Proof.
  intros Hnd. unfold setAdd. case_bool_decide as Hin; [done|].
  apply NoDup_app. split; [done|]. split; [|apply NoDup_singleton].
  intros x Hx Hx'. apply list_elem_of_singleton in Hx'. now subst.
Qed.

(** Every link that [discoverLinks] returns begins with [baseUrl], as a
    string, and no link is returned twice. *)
Lemma forEachAnchor_scope (env : Env) (baseUrl : string)
  (anchors : list (option string)) :
  forall links links',
    forEachAnchor env baseUrl anchors links = Returned links' ->
    NoDup links ->
    (forall u, u ∈ links -> startsWith u baseUrl = true) ->
    NoDup links' /\ (forall u, u ∈ links' -> startsWith u baseUrl = true).
Proof.
  induction anchors as [|attr rest IH]; intros links links' Hrun Hnd Hscope;
    simpl in Hrun.
  - inversion Hrun; subst. now split.
  - destruct (resolveHref env baseUrl attr) as [href|]; [|discriminate].
    apply IH in Hrun; [done| |].
    + unfold addIfInScope. destruct href as [h|]; [|done].
      destruct (nonEmpty h && startsWith h baseUrl); [|done].
      now apply setAdd_NoDup.
    + intros u. unfold addIfInScope. destruct href as [h|]; [|now apply Hscope].
      destruct (nonEmpty h && startsWith h baseUrl) eqn:Hin; [|now apply Hscope].
      rewrite setAdd_elem. intros [Hu | ->]; [now apply Hscope|].
      now apply andb_true_iff in Hin as [_ Hin].
Qed.

Lemma discoverLinks_scope (env : Env) (baseUrl : string) (pg : Page)
  (links : list string) :
  discoverLinks env baseUrl pg = Returned links ->
  NoDup links /\ (forall u, u ∈ links -> startsWith u baseUrl = true).
Proof.
  intros Hrun. apply (forEachAnchor_scope env baseUrl (anchorHrefs pg) [] links Hrun).
  - apply NoDup_nil_2.
  - intros u Hu. inversion Hu.
Qed.

(** ** File names *)

Example urlToFileName_seed :
  urlToFileName "https://example.test/" = "example_test_.txt"%string.
Proof. vm_compute. reflexivity. Qed.

Example urlToFileName_query :
  urlToFileName "http://Example.test/Docs/a-b?x=1&&y=2"
  = "example_test_docs_a_b_x_1_y_2.txt"%string.
Proof. vm_compute. reflexivity. Qed.

(** Only a lower-case scheme at the very start is stripped. *)
Example urlToFileName_upper_scheme :
  urlToFileName "HTTPS://example.test/a" = "https_example_test_a.txt"%string.
Proof. vm_compute. reflexivity. Qed.

(** Distinct URLs can share a file name. *)
Example urlToFileName_collision :
  urlToFileName "https://example.test/a/b" = urlToFileName "https://example.test/a?b".
Proof. vm_compute. reflexivity. Qed.

(** ** A failed write in the budget scenario *)

(** The artifact of [/a] cannot be written: the crawl visits the same three
    URLs, never calls [saveToFile] on [/a] again, and counts two pages. *)
Example readOnly_scenario :
  let o := crawl Scenario.readOnlyWorld Scenario.seed 3 newCrawler in
  (fun st => saveCalls (trace st)) <$> finalState o
  = Some ["https://example.test/"; "https://example.test/a";
          "https://example.test/c"]%string /\
  visitedSize <$> finalState o = Some 3%Z /\
  pageCount <$> finalState o = Some 2%nat.
Proof. cbv zeta. repeat apply conj; vm_compute; reflexivity. Qed.

(** The cycle A -> B -> A with budget 5 stops after two pages. *)
Example cycle_scenario :
  (fun st => navigated (trace st)) <$> finalState
    (crawl (Scenario.world (Scenario.serve Scenario.cycleSite))
       Scenario.seed 5 newCrawler)
  = Some ["https://example.test/"; "https://example.test/b"]%string.
Proof. vm_compute. reflexivity. Qed.

(** * Further properties *)

(** ** File names, for every URL *)

Lemma collapseUnderscores_cons (c : ascii) (r : string) :
  collapseUnderscores (String c r)
  = match r with
    | String d _ =>
        if Ascii.eqb c "_" && Ascii.eqb d "_" then collapseUnderscores r
        else String c (collapseUnderscores r)
    | EmptyString => String c EmptyString
    end.
Proof.
  destruct r as [|d r'].
  - destruct c as [[|] [|] [|] [|] [|] [|] [|] [|]]; reflexivity.
  - destruct c as [[|] [|] [|] [|] [|] [|] [|] [|]]; try reflexivity.
    destruct d as [[|] [|] [|] [|] [|] [|] [|] [|]]; reflexivity.
Qed.

Lemma isAlnum_lower (c : ascii) :
  isAlnum c = true -> isFileChar (lowerChar c) = true.
Proof.
  destruct c as [[|] [|] [|] [|] [|] [|] [|] [|]]; vm_compute; congruence.
Qed.

Lemma lowerChar_underscore (c : ascii) :
  Ascii.eqb (lowerChar c) "_" = Ascii.eqb c "_".
Proof.
  destruct c as [[|] [|] [|] [|] [|] [|] [|] [|]]; vm_compute; reflexivity.
Qed.

Lemma chars_replaceNonAlnum (s : string) :
  list_ascii_of_string (replaceNonAlnum s)
  = List.map (fun c => if isAlnum c then c else "_"%char) (list_ascii_of_string s).
Proof. unfold replaceNonAlnum. apply list_ascii_of_string_of_list_ascii. Qed.

Lemma chars_toLowerCase (s : string) :
  list_ascii_of_string (toLowerCase s)
  = List.map lowerChar (list_ascii_of_string s).
Proof. unfold toLowerCase. apply list_ascii_of_string_of_list_ascii. Qed.

Lemma chars_append (s t : string) :
  list_ascii_of_string (s ++ t)%string
  = list_ascii_of_string s ++ list_ascii_of_string t.
Proof. induction s as [|c s IH]; simpl; [done|]. now rewrite IH. Qed.

(** Collapsing only drops characters. *)
Lemma collapseUnderscores_Forall (P : ascii -> Prop) (s : string) :
  Forall P (list_ascii_of_string s) ->
  Forall P (list_ascii_of_string (collapseUnderscores s)).
Proof.
  induction s as [|c r IH]; intros H; [done|].
  rewrite collapseUnderscores_cons. simpl in H. inversion H as [|? ? Hc Hr]; subst.
  destruct r as [|d r']; [now constructor|].
  destruct (Ascii.eqb c "_" && Ascii.eqb d "_"); [now apply IH|].
  simpl. constructor; [done|]. now apply IH.
Qed.

(** The first character of the collapsed string is an underscore exactly
    when the first character of the string is. *)
Lemma collapseUnderscores_head (s : string) :
  match list_ascii_of_string (collapseUnderscores s) with
  | a :: _ => Ascii.eqb a "_"
  | [] => false
  end
  = match list_ascii_of_string s with
    | a :: _ => Ascii.eqb a "_"
    | [] => false
    end.
Proof.
  induction s as [|c r IH]; [done|].
  rewrite collapseUnderscores_cons.
  destruct r as [|d r']; [done|].
  destruct (Ascii.eqb c "_" && Ascii.eqb d "_") eqn:Hcd; [|done].
  rewrite IH. simpl. apply andb_true_iff in Hcd as [-> ->]. done.
Qed.

Lemma collapseUnderscores_single (s : string) :
  doubled (list_ascii_of_string (collapseUnderscores s)) = false.
Proof.
  induction s as [|c r IH]; [done|].
  rewrite collapseUnderscores_cons.
  destruct r as [|d r']; [done|].
  destruct (Ascii.eqb c "_" && Ascii.eqb d "_") eqn:Hcd; [exact IH|].
  pose proof (collapseUnderscores_head (String d r')) as Hhead.
  change (list_ascii_of_string (String c (collapseUnderscores (String d r'))))
    with (c :: list_ascii_of_string (collapseUnderscores (String d r'))).
  destruct (list_ascii_of_string (collapseUnderscores (String d r')))
    as [|a l] eqn:Hl; [done|].
  change (doubled (c :: a :: l))
    with (Ascii.eqb c "_" && Ascii.eqb a "_" || doubled (a :: l)).
  rewrite IH, orb_false_r. simpl in Hhead. now rewrite Hhead.
Qed.

Lemma doubled_map_lower (l : list ascii) :
  doubled (List.map lowerChar l) = doubled l.
Proof.
  induction l as [|a [|b l] IH]; [done|done|].
  change (doubled (List.map lowerChar (a :: b :: l)))
    with (Ascii.eqb (lowerChar a) "_" && Ascii.eqb (lowerChar b) "_"
          || doubled (List.map lowerChar (b :: l))).
  now rewrite IH, !lowerChar_underscore.
Qed.

(** Appending a string that does not start with an underscore. *)
Lemma doubled_app (l k : list ascii) :
  doubled l = false -> doubled k = false ->
  match k with a :: _ => Ascii.eqb a "_" = false | [] => True end ->
  doubled (l ++ k) = false.
Proof.
  intros Hl Hk Hhead. induction l as [|a [|b l] IH].
  - done.
  - destruct k as [|c k]; [done|].
    change (doubled ([a] ++ c :: k))
      with (Ascii.eqb a "_" && Ascii.eqb c "_" || doubled (c :: k)).
    now rewrite Hhead, andb_false_r, Hk.
  - change (doubled ((a :: b :: l) ++ k))
      with (Ascii.eqb a "_" && Ascii.eqb b "_" || doubled ((b :: l) ++ k)).
    change (doubled (a :: b :: l))
      with (Ascii.eqb a "_" && Ascii.eqb b "_" || doubled (b :: l)) in Hl.
    apply orb_false_iff in Hl as [-> Hl]. now apply IH.
Qed.

(** X1. Whatever the URL, the file name is a stem followed by [.txt], and
    the stem holds lower-case letters, digits and underscores only: no
    separator, no dot, nothing that could leave [outputDir]. *)
Theorem urlToFileName_alphabet (url : string) :
  exists stem : string,
    urlToFileName url = (stem ++ ".txt")%string /\
    Forall (fun c => isFileChar c = true) (list_ascii_of_string stem).
Proof.
  eexists. split; [reflexivity|].
  rewrite chars_toLowerCase. apply Forall_map.
  apply (collapseUnderscores_Forall (fun c => isFileChar (lowerChar c) = true)).
  rewrite chars_replaceNonAlnum. apply Forall_map, Forall_forall.
  intros c _. simpl. destruct (isAlnum c) eqn:Hc; [now apply isAlnum_lower|].
  reflexivity.
Qed.

(** X2. No file name has two underscores in a row, whatever the URL. *)
Theorem urlToFileName_single_underscores (url : string) :
  doubled (list_ascii_of_string (urlToFileName url)) = false.
Proof.
  unfold urlToFileName. rewrite chars_append, chars_toLowerCase.
  apply doubled_app; [|done|done].
  rewrite doubled_map_lower. apply collapseUnderscores_single.
Qed.

Lemma substring_all (s : string) : String.substring 0 (String.length s) s = s.
Proof. induction s as [|c s IH]; simpl; [done|]. now rewrite IH. Qed.

Lemma stripScheme_https (r : string) : stripScheme ("https://" ++ r)%string = r.
Proof.
  unfold stripScheme, startsWith.
  assert (Hp : String.prefix "https://" ("https://" ++ r)%string = true)
    by now destruct r.
  rewrite Hp. change ("https://" ++ r)%string
    with (String "h" (String "t" (String "t" (String "p" (String "s"
            (String ":" (String "/" (String "/" r)))))))).
  simpl. rewrite Nat.sub_0_r. apply substring_all.
Qed.

Lemma stripScheme_http (r : string) : stripScheme ("http://" ++ r)%string = r.
Proof.
  unfold stripScheme, startsWith.
  assert (Hs : String.prefix "https://" ("http://" ++ r)%string = false)
    by reflexivity.
  assert (Hp : String.prefix "http://" ("http://" ++ r)%string = true)
    by now destruct r.
  rewrite Hs, Hp. change ("http://" ++ r)%string
    with (String "h" (String "t" (String "t" (String "p"
            (String ":" (String "/" (String "/" r))))))).
  simpl. rewrite Nat.sub_0_r. apply substring_all.
Qed.

Lemma toLowerCase_cons (c : ascii) (s : string) :
  toLowerCase (String c s) = String (lowerChar c) (toLowerCase s).
Proof. reflexivity. Qed.

Lemma replaceNonAlnum_cons (c : ascii) (s : string) :
  replaceNonAlnum (String c s)
  = String (if isAlnum c then c else "_"%char) (replaceNonAlnum s).
Proof. reflexivity. Qed.

Lemma replaceNonAlnum_app (p q : string) :
  replaceNonAlnum (p ++ q)%string
  = (replaceNonAlnum p ++ replaceNonAlnum q)%string.
Proof.
  induction p as [|c p IH]; [done|].
  change (String c p ++ q)%string with (String c (p ++ q)%string).
  rewrite !replaceNonAlnum_cons, IH. reflexivity.
Qed.

Lemma lowerChar_replace (c : ascii) :
  (if isAlnum (lowerChar c) then lowerChar c else "_"%char)
  = lowerChar (if isAlnum c then c else "_"%char).
Proof.
  destruct c as [[|] [|] [|] [|] [|] [|] [|] [|]]; vm_compute; reflexivity.
Qed.

Lemma lowerChar_idem (c : ascii) : lowerChar (lowerChar c) = lowerChar c.
Proof.
  destruct c as [[|] [|] [|] [|] [|] [|] [|] [|]]; vm_compute; reflexivity.
Qed.

Lemma replaceNonAlnum_lower (s : string) :
  replaceNonAlnum (toLowerCase s) = toLowerCase (replaceNonAlnum s).
Proof.
  induction s as [|c s IH]; [done|].
  rewrite toLowerCase_cons, !replaceNonAlnum_cons, toLowerCase_cons, IH.
  now rewrite lowerChar_replace.
Qed.

Lemma collapseUnderscores_lower (s : string) :
  collapseUnderscores (toLowerCase s) = toLowerCase (collapseUnderscores s).
Proof.
  induction s as [|c r IH]; [done|].
  rewrite toLowerCase_cons, !collapseUnderscores_cons.
  destruct r as [|d r']; [done|].
  rewrite toLowerCase_cons, !lowerChar_underscore.
  rewrite <- (toLowerCase_cons d r'), IH.
  now destruct (Ascii.eqb c "_" && Ascii.eqb d "_").
Qed.

Lemma toLowerCase_idem (s : string) : toLowerCase (toLowerCase s) = toLowerCase s.
Proof.
  induction s as [|c s IH]; [done|].
  now rewrite !toLowerCase_cons, IH, lowerChar_idem.
Qed.

(** X3. URLs that differ in the scheme ([http] or [https]), in the case of
    their letters after it, or in which character other than a letter or a
    digit stands at some place, get the same file name: their artifacts
    overwrite one another. *)
Theorem urlToFileName_collisions (r : string) :
  urlToFileName ("http://" ++ r) = urlToFileName ("https://" ++ r) /\
  urlToFileName ("https://" ++ toLowerCase r) = urlToFileName ("https://" ++ r) /\
  (forall (p q : string) (c d : ascii),
     isAlnum c = false -> isAlnum d = false ->
     urlToFileName ("https://" ++ p ++ String c q)
     = urlToFileName ("https://" ++ p ++ String d q)).
Proof.
  unfold urlToFileName. split; [|split].
  - now rewrite stripScheme_http, stripScheme_https.
  - rewrite !stripScheme_https, replaceNonAlnum_lower, collapseUnderscores_lower.
    now rewrite toLowerCase_idem.
  - intros p q c d Hc Hd. rewrite !stripScheme_https, !replaceNonAlnum_app.
    now rewrite !replaceNonAlnum_cons, Hc, Hd.
Qed.

(** ** Link discovery, for every page *)

Lemma forEachAnchor_thrown (env : Env) (baseUrl : string)
  (anchors : list (option string)) :
  forall links,
    forEachAnchor env baseUrl anchors links = Thrown ->
    exists href,
      Some href ∈ anchors /\
      nonEmpty href && negb (startsWith href "http") && negb (startsWith href "#")
      = true /\
      urlResolve env href baseUrl = None.
Proof.
  induction anchors as [|attr rest IH]; intros links Hrun; simpl in Hrun;
    [discriminate|].
  destruct (resolveHref env baseUrl attr) as [href|] eqn:Hres.
  - destruct (IH _ Hrun) as [h [Hin Hh]]. exists h. split; [now right|done].
  - unfold resolveHref in Hres. destruct attr as [h|]; [|discriminate].
    destruct (nonEmpty h && negb (startsWith h "http") && negb (startsWith h "#"))
      eqn:Hrel; [|discriminate].
    destruct (urlResolve env h baseUrl) eqn:Hurl; [discriminate|].
    exists h. split; [now left|done].
Qed.

(** X4. [discoverLinks] throws exactly when the page has an anchor whose
    href is non-empty, starts neither with [http] nor with [#], and is
    refused by [new URL(href, baseUrl)]. *)
Theorem discoverLinks_throws_iff (env : Env) (baseUrl : string) (pg : Page) :
  discoverLinks env baseUrl pg = Thrown <->
  exists href,
    Some href ∈ anchorHrefs pg /\
    nonEmpty href && negb (startsWith href "http") && negb (startsWith href "#")
    = true /\
    urlResolve env href baseUrl = None.
Proof.
  split.
  - apply forEachAnchor_thrown.
  - intros [href [Hin [Hrel Hfail]]].
    apply list_elem_of_split in Hin as [before [after Hsplit]].
    unfold discoverLinks. rewrite Hsplit.
    now apply forEachAnchor_throws.
Qed.

Lemma addIfInScope_candidate (env : Env) (baseUrl : string)
  (attr href : option string) (links : list string) :
  resolveHref env baseUrl attr = Returned href ->
  addIfInScope baseUrl href links
  = match candidate env baseUrl attr with
    | Some h => setAdd links h
    | None => links
    end.
Proof.
  intros Hres. unfold candidate. rewrite Hres. unfold addIfInScope.
  destruct href as [h|]; [|done].
  now destruct (nonEmpty h && startsWith h baseUrl).
Qed.

Lemma forEachAnchor_foldl (env : Env) (baseUrl : string)
  (anchors : list (option string)) :
  forall links links',
    forEachAnchor env baseUrl anchors links = Returned links' ->
    links' = foldl setAdd links (candidates env baseUrl anchors).
Proof.
  induction anchors as [|attr rest IH]; intros links links' Hrun; simpl in Hrun.
  - now inversion Hrun.
  - destruct (resolveHref env baseUrl attr) as [href|] eqn:Hres; [|discriminate].
    apply IH in Hrun. rewrite Hrun.
    rewrite (addIfInScope_candidate env baseUrl attr href links Hres).
    unfold candidates. simpl.
    now destruct (candidate env baseUrl attr).
Qed.

Lemma foldl_setAdd_elem (cs : list string) :
  forall (links : list string) (u : string),
    u ∈ foldl setAdd links cs <-> u ∈ links \/ u ∈ cs.
Proof.
  induction cs as [|c cs IH]; intros links u; simpl.
  - split; [now left|]. intros [H | H]; [done|inversion H].
  - rewrite IH, setAdd_elem, elem_of_cons. tauto.
Qed.

(** Adding the elements of a list to an empty [Set] keeps the first
    occurrence of each, in order. *)
Lemma foldl_setAdd_first (cs : list string) :
  foldl setAdd [] cs = reverse (remove_dups (reverse cs)).
Proof.
  induction cs as [|c cs IH] using rev_ind; [done|].
  rewrite foldl_app, reverse_snoc. simpl. rewrite IH. unfold setAdd.
  case_bool_decide as Hin; destruct (decide_rel elem_of c (reverse cs)) as [Hin'|Hin'].
  - done.
  - exfalso. apply Hin'. rewrite elem_of_reverse.
    rewrite <- IH in Hin. apply foldl_setAdd_elem in Hin as [Hin | Hin];
      [inversion Hin|done].
  - exfalso. apply Hin. rewrite <- IH. apply foldl_setAdd_elem. right.
    now apply elem_of_reverse.
  - now rewrite reverse_cons.
Qed.

(** X5. When [discoverLinks] returns, it returns the hrefs that pass both
    tests of the callback, after resolution, each once, at the place of its
    first occurrence in document order. *)
Theorem discoverLinks_first_occurrences (env : Env) (baseUrl : string)
  (pg : Page) (links : list string) :
  discoverLinks env baseUrl pg = Returned links ->
  links = reverse (remove_dups (reverse (candidates env baseUrl (anchorHrefs pg)))) /\
  (forall u, u ∈ links <-> u ∈ candidates env baseUrl (anchorHrefs pg)).
Proof.
  intros Hrun. apply forEachAnchor_foldl in Hrun. subst links.
  split; [apply foldl_setAdd_first|].
  intros u. rewrite foldl_setAdd_elem. split; [|now right].
  intros [H | H]; [inversion H|done].
Qed.

(** The home page of the alias scenario. *)
Lemma discoverLinks_first_occurrences_witness :
  let env := Scenario.world (Scenario.serve Scenario.aliasSite) in
  let pg := Scenario.textPage "home"
              ["https://example.test/page"; "https://example.test/page#sec";
               "https://example.test/page/"; "#sec";
               "https://example.test/page"]%string in
  let links := ["https://example.test/page"; "https://example.test/page#sec";
                "https://example.test/page/"]%string in
  discoverLinks env Scenario.origin pg = Returned links /\
  links = reverse (remove_dups (reverse (candidates env Scenario.origin (anchorHrefs pg)))) /\
  (forall u, u ∈ links <-> u ∈ candidates env Scenario.origin (anchorHrefs pg)).
Proof.
  cbv zeta.
  assert (H : discoverLinks (Scenario.world (Scenario.serve Scenario.aliasSite))
                Scenario.origin
                (Scenario.textPage "home"
                   ["https://example.test/page"; "https://example.test/page#sec";
                    "https://example.test/page/"; "#sec";
                    "https://example.test/page"]%string)
              = Returned ["https://example.test/page";
                          "https://example.test/page#sec";
                          "https://example.test/page/"]%string)
    by (vm_compute; reflexivity).
  split; [exact H|].
  exact (discoverLinks_first_occurrences _ _ _ _ H).
Defined.

Lemma candidates_elem (env : Env) (baseUrl : string)
  (anchors : list (option string)) (u : string) :
  u ∈ candidates env baseUrl anchors ->
  nonEmpty u = true /\ startsWith u baseUrl = true /\
  exists attr, attr ∈ anchors /\ resolveHref env baseUrl attr = Returned (Some u).
Proof.
  unfold candidates. rewrite list_elem_of_omap. intros [attr [Hin Hc]].
  unfold candidate in Hc.
  destruct (resolveHref env baseUrl attr) as [[h|]|] eqn:Hres; try discriminate.
  destruct (nonEmpty h && startsWith h baseUrl) eqn:Hok; [|discriminate].
  inversion Hc; subst. apply andb_true_iff in Hok as [Hne Hpre].
  repeat split; [done|done|]. now exists attr.
Qed.

(** X16. Every link that [discoverLinks] returns is a non-empty string that
    begins with [baseUrl], comes from an anchor of the page (as its href, or
    as what [URL] resolved its href to), and is returned once. *)
Theorem discoverLinks_links_in_scope (env : Env) (baseUrl : string) (pg : Page)
  (links : list string) :
  discoverLinks env baseUrl pg = Returned links ->
  NoDup links /\
  (forall u, u ∈ links ->
     nonEmpty u = true /\ startsWith u baseUrl = true /\
     exists attr, attr ∈ anchorHrefs pg /\
                  resolveHref env baseUrl attr = Returned (Some u)).
Proof.
  intros Hrun. split; [now apply (discoverLinks_scope env baseUrl pg)|].
  intros u Hu. apply candidates_elem.
  apply forEachAnchor_foldl in Hrun. subst links.
  apply foldl_setAdd_elem in Hu as [Hu | Hu]; [inversion Hu|done].
Qed.

(** The relative links of the home page of the budget scenario. *)
Lemma discoverLinks_links_in_scope_witness :
  let env := Scenario.world (Scenario.serve Scenario.budgetSite) in
  let pg := Scenario.textPage "home" ["/a"; "/b"]%string in
  let links := ["https://example.test/a"; "https://example.test/b"]%string in
  discoverLinks env Scenario.origin pg = Returned links /\
  NoDup links /\
  (forall u, u ∈ links ->
     nonEmpty u = true /\ startsWith u Scenario.origin = true /\
     exists attr, attr ∈ anchorHrefs pg /\
                  resolveHref env Scenario.origin attr = Returned (Some u)).
Proof.
  cbv zeta.
  assert (H : discoverLinks (Scenario.world (Scenario.serve Scenario.budgetSite))
                Scenario.origin (Scenario.textPage "home" ["/a"; "/b"]%string)
              = Returned ["https://example.test/a"; "https://example.test/b"]%string)
    by (vm_compute; reflexivity).
  split; [exact H|].
  exact (discoverLinks_links_in_scope _ _ _ _ H).
Defined.

(** ** What [trim] removes *)

(** A no-break space (U+00A0), a byte order mark (U+FEFF) and a line
    separator (U+2028) are removed like blanks and line feeds; the white
    space inside the text stays. *)
Example trim_unicode_space :
  let nbsp := String (ascii_of_nat 194) (String (ascii_of_nat 160) "") in
  let bom := String (ascii_of_nat 239)
               (String (ascii_of_nat 187) (String (ascii_of_nat 191) "")) in
  let ls := String (ascii_of_nat 226)
              (String (ascii_of_nat 128) (String (ascii_of_nat 168) "")) in
  trim (nbsp ++ " " ++ bom ++ nl ++ "a" ++ nbsp ++ "b" ++ ls ++ " " ++ nbsp)
  = ("a" ++ nbsp ++ "b")%string.
Proof. vm_compute. reflexivity. Qed.

(** A byte that only looks like the end of a white space is kept: U+00E0
    is encoded [195 160]. *)
Example trim_keeps_letters :
  let agrave := String (ascii_of_nat 195) (String (ascii_of_nat 160) "") in
  trim (" " ++ agrave ++ " ") = agrave.
Proof. vm_compute. reflexivity. Qed.

(** ** Content extraction, for every page *)

Lemma firstNonEmpty_spec (pg : Page) (sels : list string) :
  match firstNonEmpty pg sels with
  | Some text =>
      text <> ""%string /\
      exists before sel after,
        sels = before ++ sel :: after /\
        queryText pg sel = Some text /\
        Forall (textless pg) before
  | None => Forall (textless pg) sels
  end.
Proof.
  induction sels as [|sel rest IH]; simpl; [constructor|].
  destruct (queryText pg sel) as [[|c t]|] eqn:Hsel.
  - destruct (firstNonEmpty pg rest) as [text|].
    + destruct IH as [Hne [before [s [after [-> [Hs Hbefore]]]]]].
      split; [done|]. exists (sel :: before), s, after.
      repeat split; [done|]. constructor; [now right|done].
    + constructor; [now right|done].
  - split; [done|]. exists [], sel, rest. repeat split; [done|constructor].
  - destruct (firstNonEmpty pg rest) as [text|].
    + destruct IH as [Hne [before [s [after [-> [Hs Hbefore]]]]]].
      split; [done|]. exists (sel :: before), s, after.
      repeat split; [done|]. constructor; [now left|done].
    + constructor; [now left|done].
Qed.

(** X6. [extractContent] returns the text of the first of [main],
    [#__next > div], [#__next], [body] that has any; when none has, it
    returns the text of [document.body] as it is (empty, or the text of an
    element that the selector [body] does not match, such as a frameset), and
    throws when [document.body] is null. *)
Theorem extractContent_first_with_text (pg : Page) :
  match extractContent pg with
  | Returned text =>
      (text <> ""%string /\
       exists before sel after,
         selectors = before ++ sel :: after /\
         queryText pg sel = Some text /\
         Forall (textless pg) before) \/
      (Forall (textless pg) selectors /\ bodyText pg = Some text)
  | Thrown => Forall (textless pg) selectors /\ bodyText pg = None
  end.
Proof.
  unfold extractContent.
  pose proof (firstNonEmpty_spec pg selectors) as H.
  destruct (firstNonEmpty pg selectors) as [text|]; [now left|].
  destruct (bodyText pg) as [text|]; [now right|done].
Qed.

(** A frameset document: no selector matches, [document.body] has text. *)
Example extractContent_frameset :
  extractContent {| queryText := fun _ => None; bodyText := Some "frames"%string;
                    anchorHrefs := [] |}
  = Returned "frames"%string.
Proof. reflexivity. Qed.

(** No element for any selector and no [document.body]. *)
Example extractContent_no_body :
  extractContent {| queryText := fun _ => None; bodyText := None;
                    anchorHrefs := [] |}
  = Thrown.
Proof. reflexivity. Qed.

(** ** Saving, for every file system *)

Lemma saveToFile_written (env : Env) (url content : string) (st : Crawler) :
  writeFile env (artifactPath url) (artifactText url content) = true ->
  saveToFile env url content st
  = emit (LogSaved (artifactPath url))
      (stored (artifactPath url) (artifactText url content)
         (emit (CallSaveToFile url) st)).
Proof.
  intros H. unfold saveToFile.
  change (outputDir ++ "/" ++ urlToFileName url)%string with (artifactPath url).
  change ("URL: " ++ url ++ nl ++ nl ++ "Content:" ++ nl ++ trim content)%string
    with (artifactText url content).
  now rewrite H.
Qed.

(** X7. Two URLs with the same file name, both written with success: the
    second artifact replaces the first, so that one file is on disk at that
    path, holding the second URL and its text, while [pageCount] has counted
    two pages. *)
Theorem saveToFile_overwrites (env : Env) (u1 u2 c1 c2 : string) (st : Crawler) :
  urlToFileName u1 = urlToFileName u2 ->
  writeFile env (artifactPath u1) (artifactText u1 c1) = true ->
  writeFile env (artifactPath u2) (artifactText u2 c2) = true ->
  let st2 := saveToFile env u2 c2 (saveToFile env u1 c1 st) in
  disk st2 = <[artifactPath u2 := artifactText u2 c2]> (disk st) /\
  disk st2 !! artifactPath u1 = Some (artifactText u2 c2) /\
  pageCount st2 = S (S (pageCount st)) /\
  (size (disk st2) <= S (size (disk st)))%nat.
Proof.
  intros Hname H1 H2 st2.
  assert (Hpath : artifactPath u1 = artifactPath u2)
    by (unfold artifactPath; now rewrite Hname).
  assert (Hdisk : disk st2 = <[artifactPath u2 := artifactText u2 c2]> (disk st)).
  { unfold st2. rewrite (saveToFile_written env u2 c2 _ H2).
    rewrite (saveToFile_written env u1 c1 _ H1). simpl.
    rewrite Hpath. apply insert_insert_eq. }
  split; [exact Hdisk|]. split; [|split].
  - rewrite Hdisk, Hpath. apply lookup_insert_eq.
  - unfold st2. rewrite (saveToFile_written env u2 c2 _ H2).
    now rewrite (saveToFile_written env u1 c1 _ H1).
  - rewrite Hdisk, map_size_insert.
    destruct (disk st !! artifactPath u2); unfold id; lia.
Qed.

(** [/a/b] and [/a?b] share [example_test_a_b.txt]. *)
Lemma saveToFile_overwrites_witness :
  let env := Scenario.world (Scenario.serve Scenario.budgetSite) in
  let st2 := saveToFile env "https://example.test/a?b" "second"
               (saveToFile env "https://example.test/a/b" "first" newCrawler) in
  urlToFileName "https://example.test/a/b" = urlToFileName "https://example.test/a?b" /\
  disk st2 !! artifactPath "https://example.test/a/b"
  = Some (artifactText "https://example.test/a?b" "second") /\
  pageCount st2 = S (S (pageCount newCrawler)).
Proof.
  cbv zeta.
  assert (Hname : urlToFileName "https://example.test/a/b"
                  = urlToFileName "https://example.test/a?b")
    by (vm_compute; reflexivity).
  split; [exact Hname|].
  pose proof (saveToFile_overwrites
                (Scenario.world (Scenario.serve Scenario.budgetSite))
                "https://example.test/a/b" "https://example.test/a?b"
                "first" "second" newCrawler Hname eq_refl eq_refl) as H.
  exact (conj (proj1 (proj2 H)) (proj1 (proj2 (proj2 H)))).
Defined.

(** ** Files, counter and visited URLs after a crawl *)

Lemma endsWith_conj (o : Outcome) (P Q : Crawler -> Prop) :
  endsWith o P -> endsWith o Q -> endsWith o (fun st => P st /\ Q st).
Proof. now destruct o. Qed.









Lemma consistent_saved_visited (st : Crawler) (u : string) :
  Consistent st -> CallSaveToFile u ∈ trace st -> u ∈ visitedUrls st.
Proof.
  intros [Hv _ _ _ Hg Hsv _] Hu. apply Hv, crawled_elem.
  apply (precededBy_elem _ _ _ (Hg u)).
  now apply (precededBy_elem _ _ _ (Hsv u)).
Qed.



(** ** How [crawl] ends *)

(** X9. [crawl] resolves exactly when the browser launches, the page opens
    and the start URL parses; otherwise it is rejected before any page is
    processed: the crawler is as before, except that a launched browser is
    recorded as open. *)
Theorem crawl_outcome (env : Env) (startUrl : string) (N : Z) (st : Crawler) :
  ((exists st', crawl env startUrl N st = Resolved st') <->
   launch env = true /\ newPage env = true /\ is_Some (urlOrigin env startUrl)) /\
  (forall st',
     crawl env startUrl N st = Rejected st' ->
     (launch env = false /\ st' = st) \/
     (launch env = true /\ st' = setBrowser BrowserOpen st)).
Proof.
  split; [split|].
  - intros [st' H]. unfold crawl in H.
    destruct (launch env); [|discriminate].
    destruct (newPage env); [|discriminate].
    destruct (urlOrigin env startUrl); [|discriminate]. now repeat split.
  - intros [Hl [Hn [baseUrl Ho]]]. unfold crawl. rewrite Hl, Hn, Ho.
    destruct (crawlPage_total env baseUrl N (crawlFuel N) startUrl
                (setBrowser BrowserOpen st)) as [st' Hst'];
      [apply crawlFuel_enough|].
    rewrite Hst'. eauto.
  - intros st' H. unfold crawl in H.
    destruct (launch env); [|left; now inversion H].
    right. split; [done|].
    destruct (newPage env); [|now inversion H].
    destruct (urlOrigin env startUrl) as [baseUrl|]; [|now inversion H].
    destruct (crawlPage env baseUrl N (crawlFuel N) startUrl _); discriminate.
Qed.

(** X10. The budget is compared with the size of [visitedUrls], which the
    crawler object keeps: when it is not above that size (a budget of zero
    or less, or a crawler whose earlier crawls have visited that many URLs)
    [crawl] still launches and closes the browser but visits nothing, not
    even the start URL. *)
Theorem crawl_with_spent_budget (env : Env) (startUrl : string) (N : Z)
  (st : Crawler) :
  (N <= visitedSize st)%Z ->
  endsWith (crawl env startUrl N st)
    (fun st' =>
       visitedUrls st' = visitedUrls st /\
       pageCount st' = pageCount st /\
       disk st' = disk st /\
       navigated (trace st') = navigated (trace st) /\
       saveCalls (trace st') = saveCalls (trace st)).
Proof.
  intros HN. apply crawl_ends; [done|done|].
  intros baseUrl st' Hrun.
  unfold crawlFuel in Hrun. rewrite crawlPage_skip in Hrun.
  - inversion Hrun; subst. simpl.
    rewrite navigated_app, saveCalls_app. simpl. now rewrite !app_nil_r.
  - unfold skips. apply orb_true_iff. left. rewrite Z.geb_leb. now apply Z.leb_le.
Qed.

(** A budget of zero on a new crawler. *)
Lemma crawl_with_spent_budget_witness :
  (0 <= visitedSize newCrawler)%Z /\
  endsWith (crawl (Scenario.world (Scenario.serve Scenario.budgetSite))
              Scenario.seed 0 newCrawler)
    (fun st' =>
       visitedUrls st' = visitedUrls newCrawler /\
       pageCount st' = pageCount newCrawler /\
       disk st' = disk newCrawler /\
       navigated (trace st') = navigated (trace newCrawler) /\
       saveCalls (trace st') = saveCalls (trace newCrawler)).
Proof.
  assert (H : (0 <= visitedSize newCrawler)%Z) by (rewrite visitedSize_new; lia).
  split; [exact H|].
  exact (crawl_with_spent_budget
           (Scenario.world (Scenario.serve Scenario.budgetSite))
           Scenario.seed 0 newCrawler H).
Defined.

(** ** The first visit *)

(** From its first step on, a visit that is not skipped only moves forward. *)
Lemma crawlPage_begun (env : Env) (baseUrl : string) (N : Z) (fuel : nat)
  (url : string) (st st' : Crawler) :
  skips N url st = false ->
  crawlPage env baseUrl N (S fuel) url st = Done st' ->
  Grows N (beginVisit url st) st'.
Proof.
  intros Hskip Hrun.
  destruct (goto env url) as [pg|] eqn:Hgoto.
  - destruct (extractContent pg) as [content|] eqn:Hext.
    + apply grows_trans with (saveToFile env url content (beginVisit url st)).
      * apply (step_grows env).
        now apply StepSave
          with (tr := trace (markVisited url (emit (LogCrawling url) st))).
      * now apply (crawlPage_after_save env baseUrl N fuel url st st' pg content).
    + simpl in Hrun. rewrite Hskip, Hgoto, Hext in Hrun. inversion Hrun; subst.
      apply (step_grows env). now apply StepNote.
  - simpl in Hrun. rewrite Hskip, Hgoto in Hrun. inversion Hrun; subst.
    apply (step_grows env). now apply StepNote.
Qed.

(** What a resolved crawl with a budget of one page or more did first. *)
Lemma crawl_resolved_start (env : Env) (startUrl : string) (N : Z) (st : Crawler) :
  (1 <= N)%Z ->
  crawl env startUrl N newCrawler = Resolved st ->
  startUrl ∈ visitedUrls st /\
  exists tr, trace st = LogCrawling startUrl :: CallGoto startUrl :: tr.
Proof.
  intros HN Hcrawl.
  apply crawl_resolved in Hcrawl as [baseUrl [st' [Hrun ->]]].
  unfold crawlFuel in Hrun.
  apply crawlPage_begun in Hrun as [Hsub [evs [Htr _]] _ _].
  - split.
    + simpl. apply Hsub. simpl. set_solver.
    + exists (evs ++ [LogCompleted (pageCount st')]). simpl. rewrite Htr.
      simpl. reflexivity.
  - apply skips_false. split.
    + change (visitedSize (setBrowser BrowserOpen newCrawler))
        with (visitedSize newCrawler). rewrite visitedSize_new. lia.
    + simpl. set_solver.
Qed.

(** X11. A crawl with a budget of at least one page that resolves on a new
    crawler has visited the start URL, and began with it: the start URL is
    admitted and navigated to whatever it is, before anything else. *)
Theorem crawl_visits_start (env : Env) (startUrl : string) (N : Z) :
  (1 <= N)%Z ->
  match crawl env startUrl N newCrawler with
  | Resolved st =>
      startUrl ∈ visitedUrls st /\
      exists tr, trace st = LogCrawling startUrl :: CallGoto startUrl :: tr
  | Rejected _ => True
  | Diverged => False
  end.
Proof.
  intros HN.
  pose proof (crawl_never_diverges env startUrl N newCrawler) as Hnd.
  destruct (crawl env startUrl N newCrawler) as [st|st|] eqn:Hcrawl; [|done|done].
  now apply (crawl_resolved_start env startUrl N).
Qed.

Lemma crawl_visits_start_witness :
  (1 <= 5)%Z /\
  match crawl (Scenario.world (Scenario.serve Scenario.cycleSite))
          Scenario.seed 5 newCrawler with
  | Resolved st =>
      Scenario.seed ∈ visitedUrls st /\
      exists tr, trace st = LogCrawling Scenario.seed :: CallGoto Scenario.seed :: tr
  | Rejected _ => True
  | Diverged => False
  end.
Proof.
  split; [lia|].
  refine (crawl_visits_start
            (Scenario.world (Scenario.serve Scenario.cycleSite))
            Scenario.seed 5 _).
  lia.
Defined.

(** A crawl whose start URL is already visited processes nothing. *)
Lemma crawl_visited_start (env : Env) (startUrl : string) (N : Z) (st : Crawler) :
  startUrl ∈ visitedUrls st ->
  endsWith (crawl env startUrl N st)
    (fun st' =>
       visitedUrls st' = visitedUrls st /\
       pageCount st' = pageCount st /\
       disk st' = disk st /\
       navigated (trace st') = navigated (trace st) /\
       saveCalls (trace st') = saveCalls (trace st)).
Proof.
  intros Hin. apply crawl_ends; [done|done|].
  intros baseUrl st' Hrun.
  unfold crawlFuel in Hrun. rewrite crawlPage_skip in Hrun.
  - inversion Hrun; subst. simpl.
    rewrite navigated_app, saveCalls_app. simpl. now rewrite !app_nil_r.
  - unfold skips. apply orb_true_iff. right. now apply bool_decide_eq_true.
Qed.

(** X12. The visited URLs stay in the crawler object: after a crawl with a
    budget of at least one page has resolved, a second [crawl] of the same
    start URL on the same object, under any budget, visits and saves
    nothing. *)
Theorem crawl_twice_is_idle (env : Env) (startUrl : string) (N N' : Z) :
  (1 <= N)%Z ->
  match crawl env startUrl N newCrawler with
  | Resolved st1 =>
      endsWith (crawl env startUrl N' st1)
        (fun st2 =>
           visitedUrls st2 = visitedUrls st1 /\
           pageCount st2 = pageCount st1 /\
           disk st2 = disk st1 /\
           navigated (trace st2) = navigated (trace st1) /\
           saveCalls (trace st2) = saveCalls (trace st1))
  | Rejected _ => True
  | Diverged => False
  end.
Proof.
  intros HN.
  pose proof (crawl_never_diverges env startUrl N newCrawler) as Hnd.
  destruct (crawl env startUrl N newCrawler) as [st1|st1|] eqn:Hcrawl;
    [|done|done].
  apply crawl_visited_start.
  now apply (crawl_resolved_start env startUrl N).
Qed.

Lemma crawl_twice_is_idle_witness :
  (1 <= 5)%Z /\
  match crawl (Scenario.world (Scenario.serve Scenario.cycleSite))
          Scenario.seed 5 newCrawler with
  | Resolved st1 =>
      endsWith (crawl (Scenario.world (Scenario.serve Scenario.cycleSite))
                  Scenario.seed 7 st1)
        (fun st2 =>
           visitedUrls st2 = visitedUrls st1 /\
           pageCount st2 = pageCount st1 /\
           disk st2 = disk st1 /\
           navigated (trace st2) = navigated (trace st1) /\
           saveCalls (trace st2) = saveCalls (trace st1))
  | Rejected _ => True
  | Diverged => False
  end.
Proof.
  split; [lia|].
  refine (crawl_twice_is_idle
            (Scenario.world (Scenario.serve Scenario.cycleSite))
            Scenario.seed 5 7 _).
  lia.
Defined.

(** ** Where a crawl can go *)

Lemma forLinks_scope (baseUrl : string) (N : Z) (v : string -> Crawler -> Run)
  (links : list string) :
  (forall url st st',
     v url st = Done st' ->
     forall u, u ∈ visitedUrls st' ->
               u ∈ visitedUrls st \/ u = url \/ startsWith u baseUrl = true) ->
  (forall l, l ∈ links -> startsWith l baseUrl = true) ->
  forall st st',
    forLinks N v links st = Done st' ->
    forall u, u ∈ visitedUrls st' ->
              u ∈ visitedUrls st \/ startsWith u baseUrl = true.
Proof.
  intros Hv. induction links as [|link rest IH]; intros Hlinks st st' Hrun u Hu.
  - inversion Hrun; subst. now left.
  - rewrite forLinks_cons in Hrun.
    destruct (visitedSize st <? N)%Z; [|inversion Hrun; subst; now left].
    destruct (v link st) as [st1|] eqn:Hlink; [|discriminate].
    destruct (IH (fun l Hl => Hlinks l (list_elem_of_further _ _ _ Hl))
                st1 st' Hrun u Hu) as [H1 | HQ]; [|now right].
    destruct (Hv link st st1 Hlink u H1) as [H | [-> | H]];
      [now left| |now right].
    right. apply Hlinks. apply list_elem_of_here.
Qed.

(** A visit adds its own URL and URLs that begin with [baseUrl], nothing
    else. *)
Lemma crawlPage_scope (env : Env) (baseUrl : string) (N : Z) (fuel : nat) :
  forall url st st',
    crawlPage env baseUrl N fuel url st = Done st' ->
    forall u, u ∈ visitedUrls st' ->
              u ∈ visitedUrls st \/ u = url \/ startsWith u baseUrl = true.
Proof.
  induction fuel as [|fuel IH]; intros url st st' Hrun u Hu; [discriminate|].
  destruct (skips N url st) eqn:Hskip.
  { rewrite crawlPage_skip in Hrun by done. inversion Hrun; subst. now left. }
  assert (Hbegin : forall x, x ∈ visitedUrls (beginVisit url st) ->
                             x ∈ visitedUrls st \/ x = url).
  { intros x Hx. change (x ∈ {[url]} ∪ visitedUrls st) in Hx.
    apply elem_of_union in Hx as [Hx | Hx]; [right|now left].
    now apply elem_of_singleton in Hx. }
  destruct (goto env url) as [pg|] eqn:Hgoto.
  2:{ simpl in Hrun. rewrite Hskip, Hgoto in Hrun. inversion Hrun; subst.
      destruct (Hbegin u Hu); tauto. }
  destruct (extractContent pg) as [content|] eqn:Hext.
  2:{ simpl in Hrun. rewrite Hskip, Hgoto, Hext in Hrun. inversion Hrun; subst.
      destruct (Hbegin u Hu); tauto. }
  rewrite (crawlPage_rendered env baseUrl N fuel url st pg content Hskip Hgoto Hext)
    in Hrun.
  destruct (discoverLinks env baseUrl pg) as [links|] eqn:Hlinks.
  - apply discoverLinks_scope in Hlinks as [_ Hscope].
    destruct (forLinks_scope baseUrl N (crawlPage env baseUrl N fuel) links IH
                Hscope _ _ Hrun u Hu) as [H | H]; [|tauto].
    change (visitedUrls (emit (LogDiscovered (length links) url)
                           (saveToFile env url content (beginVisit url st))))
      with (visitedUrls (saveToFile env url content (beginVisit url st))) in H.
    rewrite saveToFile_visited in H. destruct (Hbegin u H); tauto.
  - inversion Hrun; subst.
    change (visitedUrls (emit (LogCrawlFailed url)
                           (saveToFile env url content (beginVisit url st))))
      with (visitedUrls (saveToFile env url content (beginVisit url st))) in Hu.
    rewrite saveToFile_visited in Hu. destruct (Hbegin u Hu); tauto.
Qed.

(** X13. Every URL visited by a crawl on a new crawler is the start URL or
    begins, as a string, with the origin of the start URL; so does the URL
    in the header of every file written. *)
Theorem crawl_stays_under_prefix (env : Env) (startUrl baseUrl : string) (N : Z) :
  urlOrigin env startUrl = Some baseUrl ->
  endsWith (crawl env startUrl N newCrawler)
    (fun st =>
       (forall u, u ∈ visitedUrls st ->
                  u = startUrl \/ startsWith u baseUrl = true) /\
       (forall u, CallSaveToFile u ∈ trace st ->
                  u = startUrl \/ startsWith u baseUrl = true)).
Proof.
  intros Horigin.
  assert (H : endsWith (crawl env startUrl N newCrawler)
                (fun st =>
                   Consistent st /\
                   forall u, u ∈ visitedUrls st ->
                             u = startUrl \/ startsWith u baseUrl = true)).
  { apply endsWith_conj.
    - apply crawl_consistent, consistent_new.
    - unfold crawl. rewrite Horigin.
      destruct (launch env); [|simpl; set_solver].
      destruct (newPage env); [|simpl; set_solver].
      destruct (crawlPage_total env baseUrl N (crawlFuel N) startUrl
                  (setBrowser BrowserOpen newCrawler)) as [st' Hst'];
        [apply crawlFuel_enough|].
      rewrite Hst'. simpl. intros u Hu.
      destruct (crawlPage_scope env baseUrl N _ _ _ _ Hst' u Hu) as [H | H];
        [simpl in H; set_solver|done]. }
  eapply endsWith_impl; [|exact H].
  intros st [Hc Hv]. split; [exact Hv|].
  intros u Hu. apply Hv. now apply consistent_saved_visited.
Qed.

Lemma crawl_stays_under_prefix_witness :
  urlOrigin (Scenario.world (Scenario.serve Scenario.lookalikeSite)) Scenario.seed
  = Some Scenario.origin /\
  endsWith (crawl (Scenario.world (Scenario.serve Scenario.lookalikeSite))
              Scenario.seed 10 newCrawler)
    (fun st =>
       (forall u, u ∈ visitedUrls st ->
                  u = Scenario.seed \/ startsWith u Scenario.origin = true) /\
       (forall u, CallSaveToFile u ∈ trace st ->
                  u = Scenario.seed \/ startsWith u Scenario.origin = true)).
Proof.
  assert (H : urlOrigin (Scenario.world (Scenario.serve Scenario.lookalikeSite))
                Scenario.seed = Some Scenario.origin) by (vm_compute; reflexivity).
  split; [exact H|].
  exact (crawl_stays_under_prefix _ _ _ 10 H).
Defined.

(** ** What holds between two visits *)

Lemma forLinks_preserves (N : Z) (P : Crawler -> Prop)
  (v : string -> Crawler -> Run) (links : list string) :
  (forall url st st', P st -> v url st = Done st' -> P st') ->
  forall st st', P st -> forLinks N v links st = Done st' -> P st'.
Proof.
  intros Hv. induction links as [|link rest IH]; intros st st' Hst Hrun.
  - now inversion Hrun; subst.
  - rewrite forLinks_cons in Hrun.
    destruct (visitedSize st <? N)%Z; [|now inversion Hrun; subst].
    destruct (v link st) as [st1|] eqn:Hlink; [|discriminate].
    apply (IH st1 st'); [|done]. now apply (Hv link st).
Qed.

(** A property that survives each of the three ways a visit can go survives
    every run of [crawlPage]. *)
Lemma crawlPage_preserves (env : Env) (baseUrl : string) (N : Z)
  (P : Crawler -> Prop) :
  (forall url st,
     skips N url st = false -> P st -> goto env url = None ->
     P (emit (LogCrawlFailed url) (beginVisit url st))) ->
  (forall url st pg,
     skips N url st = false -> P st -> goto env url = Some pg ->
     extractContent pg = Thrown ->
     P (emit (LogCrawlFailed url) (beginVisit url st))) ->
  (forall url st pg content e,
     skips N url st = false -> P st -> goto env url = Some pg ->
     extractContent pg = Returned content -> isNote e = true ->
     P (emit e (saveToFile env url content (beginVisit url st)))) ->
  forall fuel url st st',
    P st -> crawlPage env baseUrl N fuel url st = Done st' -> P st'.
Proof.
  intros Hfail Hthrow Hsaved.
  induction fuel as [|fuel IH]; intros url st st' Hst Hrun; [discriminate|].
  destruct (skips N url st) eqn:Hskip.
  { rewrite crawlPage_skip in Hrun by done. now inversion Hrun; subst. }
  destruct (goto env url) as [pg|] eqn:Hgoto.
  2:{ simpl in Hrun. rewrite Hskip, Hgoto in Hrun. inversion Hrun; subst.
      now apply Hfail. }
  destruct (extractContent pg) as [content|] eqn:Hext.
  2:{ simpl in Hrun. rewrite Hskip, Hgoto, Hext in Hrun. inversion Hrun; subst.
      now apply (Hthrow url st pg). }
  rewrite (crawlPage_rendered env baseUrl N fuel url st pg content Hskip Hgoto Hext)
    in Hrun.
  destruct (discoverLinks env baseUrl pg) as [links|].
  - apply (forLinks_preserves N P (crawlPage env baseUrl N fuel) links IH _ _)
      in Hrun; [done|].
    now apply (Hsaved url st pg content).
  - inversion Hrun; subst. now apply (Hsaved url st pg content).
Qed.

(** The same for [crawl], when the property does not read the browser
    field nor the closing console line. *)
Lemma crawl_preserves (env : Env) (startUrl : string) (N : Z)
  (P : Crawler -> Prop) (st : Crawler) :
  (forall baseUrl fuel url s s',
     P s -> crawlPage env baseUrl N fuel url s = Done s' -> P s') ->
  (forall b s, P s -> P (setBrowser b s)) ->
  (forall n s, P s -> P (emit (LogCompleted n) s)) ->
  P st -> endsWith (crawl env startUrl N st) P.
Proof.
  intros Hpage Hb Hdone Hst. apply crawl_ends; [done|now apply Hb|].
  intros baseUrl st' Hrun. apply Hdone, Hb.
  apply (Hpage _ _ _ _ _ (Hb BrowserOpen st Hst) Hrun).
Qed.

(** *** Served *)

Lemma served_visit (env : Env) (url : string) (st st2 : Crawler)
  (evs : list Event) :
  Served env st ->
  (forall u, u ∈ visitedUrls st2 <-> u = url \/ u ∈ visitedUrls st) ->
  trace st2 = trace st ++ evs ->
  CallGoto url ∈ evs ->
  (renders env url -> CallSaveToFile url ∈ evs) ->
  (forall u, CallSaveToFile u ∈ evs -> u = url /\ renders env url) ->
  Served env st2.
Proof.
  intros [Hg Hs Ho] Hv Htr Hgoto Hsave Honly. split.
  - intros u Hu. rewrite Htr, elem_of_app. apply Hv in Hu as [-> | Hu];
      [now right|left; now apply Hg].
  - intros u Hu Hr. rewrite Htr, elem_of_app. apply Hv in Hu as [-> | Hu];
      [right; now apply Hsave|left; now apply Hs].
  - intros u Hu. rewrite Htr, elem_of_app in Hu. destruct Hu as [Hu | Hu];
      [now apply Ho|]. now destruct (Honly u Hu) as [-> Hr].
Qed.

Lemma beginVisit_visited (url : string) (st : Crawler) (u : string) :
  u ∈ visitedUrls (beginVisit url st) <-> u = url \/ u ∈ visitedUrls st.
Proof.
  change (visitedUrls (beginVisit url st)) with ({[url]} ∪ visitedUrls st).
  now rewrite elem_of_union, elem_of_singleton.
Qed.

Lemma served_failed (env : Env) (url : string) (st : Crawler) :
  Served env st -> ~ renders env url ->
  Served env (emit (LogCrawlFailed url) (beginVisit url st)).
Proof.
  intros Hst Hno.
  apply (served_visit env url st _
           [LogCrawling url; CallGoto url; LogCrawlFailed url] Hst).
  - apply beginVisit_visited.
  - simpl. now rewrite <- !app_assoc.
  - apply list_elem_of_further, list_elem_of_here.
  - intros Hr. now destruct Hno.
  - intros u Hu. rewrite !elem_of_cons in Hu.
    destruct Hu as [Hu | [Hu | [Hu | Hu]]]; try discriminate. inversion Hu.
Qed.

Lemma crawlPage_served (env : Env) (baseUrl : string) (N : Z) (fuel : nat)
  (url : string) (st st' : Crawler) :
  Served env st -> crawlPage env baseUrl N fuel url st = Done st' -> Served env st'.
Proof.
  apply (crawlPage_preserves env baseUrl N (Served env)).
  - intros u s _ Hs Hgoto. apply served_failed; [done|].
    intros [pg [c [Hg _]]]. congruence.
  - intros u s pg _ Hs Hgoto Hext. apply served_failed; [done|].
    intros [pg' [c [Hg He]]]. congruence.
  - intros u s pg content e _ Hs Hgoto Hext He.
    destruct (saveToFile_trace env u content (beginVisit u s)) as [e' [He' Htr]].
    apply (served_visit env u s _
             [LogCrawling u; CallGoto u; CallSaveToFile u; e'; e] Hs).
    + intros x.
      change (visitedUrls (emit e (saveToFile env u content (beginVisit u s))))
        with (visitedUrls (saveToFile env u content (beginVisit u s))).
      rewrite saveToFile_visited. apply beginVisit_visited.
    + change (trace (emit e (saveToFile env u content (beginVisit u s))))
        with (trace (saveToFile env u content (beginVisit u s)) ++ [e]).
      rewrite Htr. simpl. now rewrite <- !app_assoc.
    + apply list_elem_of_further, list_elem_of_here.
    + intros _. do 2 apply list_elem_of_further. apply list_elem_of_here.
    + intros x Hx. assert (Hr : renders env u) by now exists pg, content.
      rewrite !elem_of_cons in Hx.
      destruct Hx as [Hx | [Hx | [Hx | [Hx | [Hx | Hx]]]]]; try discriminate.
      * now inversion Hx.
      * destruct He' as [-> | [p ->]]; discriminate.
      * subst e. discriminate.
      * inversion Hx.
Qed.

(** X14. After a crawl on a new crawler every visited URL has been
    navigated to, and [saveToFile] has been called on a URL exactly when it
    was visited and its page loaded and yielded a text: no rendered page is
    left unsaved, whatever failed elsewhere. *)
Theorem crawl_saves_what_renders (env : Env) (startUrl : string) (N : Z) :
  endsWith (crawl env startUrl N newCrawler)
    (fun st =>
       (forall u, u ∈ visitedUrls st -> CallGoto u ∈ trace st) /\
       (forall u, CallSaveToFile u ∈ trace st <->
                  u ∈ visitedUrls st /\ renders env u)).
Proof.
  assert (H : endsWith (crawl env startUrl N newCrawler)
                (fun st => Consistent st /\ Served env st)).
  { apply endsWith_conj; [apply crawl_consistent, consistent_new|].
    apply crawl_preserves.
    - intros baseUrl fuel url s s'. apply crawlPage_served.
    - intros b s [Hg Hs Ho]. now split.
    - intros n s [Hg Hs Ho]. split; simpl.
      + intros u Hu. apply elem_of_app. left. now apply Hg.
      + intros u Hu Hr. apply elem_of_app. left. now apply Hs.
      + intros u Hu. apply elem_of_app in Hu as [Hu | Hu]; [now apply Ho|].
        apply list_elem_of_singleton in Hu. discriminate.
    - split; simpl.
      + intros u Hu. set_solver.
      + intros u Hu. set_solver.
      + intros u Hu. inversion Hu. }
  eapply endsWith_impl; [|exact H].
  intros st [Hc [Hg Hs Ho]]. split; [exact Hg|].
  intros u. split.
  - intros Hu. split; [now apply consistent_saved_visited|now apply Ho].
  - intros [Hu Hr]. now apply Hs.
Qed.

(** *** Tallied *)

Lemma written_false (env : Env) (url : string) :
  ~ renders env url -> written env url = false.
Proof.
  intros Hno. unfold written. destruct (goto env url) as [pg|] eqn:Hgoto; [|done].
  destruct (extractContent pg) as [content|] eqn:Hext; [|done].
  destruct Hno. now exists pg, content.
Qed.

Lemma tallied_failed (env : Env) (url : string) (st : Crawler) :
  Tallied env st -> written env url = false ->
  Tallied env (emit (LogCrawlFailed url) (beginVisit url st)).
Proof.
  unfold Tallied. intros Hst Hw. simpl.
  rewrite !crawled_app. simpl. rewrite !app_nil_r, List.filter_app. simpl.
  rewrite Hw. simpl. now rewrite app_nil_r.
Qed.

Lemma crawlPage_tallied (env : Env) (baseUrl : string) (N : Z) (fuel : nat)
  (url : string) (st st' : Crawler) :
  Tallied env st -> crawlPage env baseUrl N fuel url st = Done st' -> Tallied env st'.
Proof.
  apply (crawlPage_preserves env baseUrl N (Tallied env)).
  - intros u s _ Hs Hgoto. apply tallied_failed; [done|].
    unfold written. now rewrite Hgoto.
  - intros u s pg _ Hs Hgoto Hext. apply tallied_failed; [done|].
    unfold written. now rewrite Hgoto, Hext.
  - intros u s pg content e _ Hs Hgoto Hext He. unfold Tallied in *.
    assert (Hw : written env u
                 = writeFile env (artifactPath u) (artifactText u content)).
    { unfold written. now rewrite Hgoto, Hext. }
    assert (Hnote : crawledUrl e = None) by now destruct e.
    destruct (writeFile env (artifactPath u) (artifactText u content)) eqn:Hwrite.
    + rewrite (saveToFile_written env u content _ Hwrite). simpl.
      rewrite !crawled_app. simpl. rewrite Hnote. simpl.
      rewrite !app_nil_r, List.filter_app, length_app. simpl.
      rewrite Hw. simpl. lia.
    + unfold saveToFile.
      change (outputDir ++ "/" ++ urlToFileName u)%string with (artifactPath u).
      change ("URL: " ++ u ++ nl ++ nl ++ "Content:" ++ nl ++ trim content)%string
        with (artifactText u content).
      rewrite Hwrite. simpl.
      rewrite !crawled_app. simpl. rewrite Hnote. simpl.
      rewrite !app_nil_r, List.filter_app, length_app. simpl.
      rewrite Hw. simpl. lia.
Qed.

(** X15. After a crawl on a new crawler, [pageCount] is the number of
    admitted URLs whose page loaded, yielded a text and whose artifact could
    be written: a page that fails in any of these is visited but not
    counted. *)
Theorem crawl_counts_written_pages (env : Env) (startUrl : string) (N : Z) :
  endsWith (crawl env startUrl N newCrawler)
    (fun st =>
       pageCount st = length (List.filter (written env) (crawled (trace st)))).
Proof.
  apply (crawl_preserves env startUrl N (Tallied env)).
  - intros baseUrl fuel url s s'. apply crawlPage_tallied.
  - intros b s Hs. exact Hs.
  - intros n s Hs. unfold Tallied in *. simpl. rewrite crawled_app. simpl.
    now rewrite app_nil_r.
  - reflexivity.
Qed.

(** * Uniqueness, termination and isolation *)

(** ** Marked before any call *)

Lemma marked_emit (e : Event) (st : Crawler) :
  (forall u, ioUrl e = Some u -> u ∈ visitedUrls st) ->
  Marked st -> Marked (emit e st).
Proof.
  intros He Hst. unfold Marked. simpl.
  apply Forall2_app; [exact Hst|]. now repeat constructor.
Qed.

Lemma marked_fields (st st' : Crawler) :
  trace st' = trace st -> seen st' = seen st -> Marked st -> Marked st'.
Proof. unfold Marked. now intros -> ->. Qed.

Lemma consistent_goto_visited (st : Crawler) (u : string) :
  Consistent st -> CallGoto u ∈ trace st -> u ∈ visitedUrls st.
Proof.
  intros [Hv _ _ _ Hg _ _] Hu. apply Hv, crawled_elem.
  now apply (precededBy_elem _ _ _ (Hg u)).
Qed.

Lemma step_marked (env : Env) (N : Z) (st st' : Crawler) :
  Step env N st st' -> Consistent st -> Marked st -> Marked st'.
Proof.
  intros [url s Hskip | url content s tr Htr | e s He] Hc Hm.
  - unfold beginVisit. apply marked_emit.
    + intros u Hu. inversion Hu; subst. simpl. set_solver.
    + apply (marked_fields (emit (LogCrawling url) s)); try done.
      apply marked_emit; [|done]. intros u Hu. discriminate.
  - assert (Hin : url ∈ visitedUrls s).
    { apply consistent_goto_visited; [done|]. rewrite Htr.
      apply elem_of_app. right. apply list_elem_of_here. }
    unfold saveToFile. destruct (writeFile env _ _).
    + apply marked_emit; [intros u Hu; discriminate|].
      apply (marked_fields (emit (CallSaveToFile url) s)); try done.
      apply marked_emit; [|done]. intros u Hu. now inversion Hu; subst.
    + apply marked_emit; [intros u Hu; discriminate|].
      apply marked_emit; [|done]. intros u Hu. now inversion Hu; subst.
  - apply marked_emit; [|done]. intros u Hu. destruct e; discriminate.
Qed.

Lemma steps_marked (env : Env) (N : Z) (st st' : Crawler) :
  rtc (Step env N) st st' -> Consistent st -> Marked st -> Marked st'.
Proof.
  induction 1 as [|a b c Hab _ IH]; [done|].
  intros Hc Hm. apply IH.
  - now apply (step_consistent env N a b).
  - now apply (step_marked env N a b).
Qed.

(** C4. After a crawl started on a new crawler no URL was admitted,
    navigated to or handed to [saveToFile] twice; every navigation comes
    after the admission of its URL and every [saveToFile] after the
    navigation; the admitted URLs are exactly the visited ones.  The URL is
    marked before any of its I/O: at the time of each [page.goto(u)] and of
    each [saveToFile(u, ...)], [u] was already in [visitedUrls] ([seen] holds
    the value of [visitedUrls] at each event of the trace).  A call of
    [crawlPage] on a URL that is already visited returns at once and leaves
    the crawler as it is. *)
Theorem each_url_processed_once (env : Env) (startUrl : string) (N : Z) :
  endsWith (crawl env startUrl N newCrawler)
    (fun st =>
       NoDup (crawled (trace st)) /\
       NoDup (navigated (trace st)) /\
       NoDup (saveCalls (trace st)) /\
       (forall u, precededBy (LogCrawling u) (CallGoto u) (trace st)) /\
       (forall u, precededBy (CallGoto u) (CallSaveToFile u) (trace st)) /\
       (forall u, u ∈ visitedUrls st <-> LogCrawling u ∈ trace st) /\
       Forall2 (fun e V => forall u, e = CallGoto u \/ e = CallSaveToFile u -> u ∈ V)
         (trace st) (seen st))
  /\ (forall baseUrl fuel url st,
        url ∈ visitedUrls st ->
        crawlPage env baseUrl N (S fuel) url st = Done st).
Proof.
  split.
  - assert (H : endsWith (crawl env startUrl N newCrawler)
                  (fun st => Consistent st /\ Marked st)).
    { apply crawl_ends.
      - split; [apply consistent_new|constructor].
      - split; [apply consistent_setBrowser, consistent_new|constructor].
      - intros baseUrl st' Hrun.
        assert (Hc0 : Consistent (setBrowser BrowserOpen newCrawler))
          by apply consistent_setBrowser, consistent_new.
        pose proof (crawlPage_steps _ _ _ _ _ _ _ Hrun) as Hsteps.
        split.
        + apply consistent_emit_plain; try done. apply consistent_setBrowser.
          now apply (steps_consistent env N (setBrowser BrowserOpen newCrawler) st').
        + apply marked_emit; [intros u Hu; discriminate|].
          apply (marked_fields st'); try done.
          apply (steps_marked env N (setBrowser BrowserOpen newCrawler) st' Hsteps Hc0).
          constructor. }
    eapply endsWith_impl; [|exact H].
    intros st [[Hv Hc Hn Hs Hg Hsv _] Hm]. repeat split; try done.
    + intros Hu. now apply crawled_elem, Hv.
    + intros Hu. now apply Hv, crawled_elem.
    + eapply Forall2_impl; [exact Hm|]. intros e V HeV u [-> | ->]; now apply HeV.
  - intros baseUrl fuel url st Hin. apply crawlPage_skip.
    unfold skips. apply orb_true_iff. right. now apply bool_decide_eq_true.
Qed.

(** The cycle, crawled: at each admission the URL is not yet in
    [visitedUrls], at each navigation it is (with the size of the set). *)
Example marked_scenario :
  (fun st =>
     omap (fun p => match p.1 with
                    | LogCrawling u | CallGoto u =>
                        Some (p.1, bool_decide (u ∈ p.2), size p.2)
                    | _ => None
                    end)
       (zip (trace st) (seen st)))
  <$> finalState (crawl (Scenario.world (Scenario.serve Scenario.cycleSite))
                    Scenario.seed 5 newCrawler)
  = Some [(LogCrawling "https://example.test/", false, 0%nat);
          (CallGoto "https://example.test/", true, 1%nat);
          (LogCrawling "https://example.test/b", false, 1%nat);
          (CallGoto "https://example.test/b", true, 2%nat)].
Proof. vm_compute. reflexivity. Qed.

(** ** Every visit that is not skipped grows the set *)

Lemma admits_refl (st : Crawler) : Admits st st.
Proof.
  split; [done|]. exists []. rewrite app_nil_r. split; [done|].
  intros u Hu. inversion Hu.
Qed.

Lemma admits_trans (a b c : Crawler) : Admits a b -> Admits b c -> Admits a c.
Proof.
  intros [Hv1 [e1 [Ht1 Hn1]]] [Hv2 [e2 [Ht2 Hn2]]].
  split; [intros x Hx; now apply Hv2, Hv1|].
  exists (e1 ++ e2). rewrite Ht2, Ht1, app_assoc. split; [done|].
  intros u Hu. rewrite crawled_app in Hu. apply elem_of_app in Hu as [Hu | Hu].
  - destruct (Hn1 u Hu) as [Hin Hout]. split; [now apply Hv2|done].
  - destruct (Hn2 u Hu) as [Hin Hout]. split; [done|]. intros H. now apply Hout, Hv1.
Qed.

Lemma step_admits (env : Env) (N : Z) (st st' : Crawler) :
  Step env N st st' -> Admits st st'.
Proof.
  intros [url s Hskip | url content s tr Htr | e s He].
  - apply skips_false in Hskip as [_ Hfresh]. split.
    + simpl. set_solver.
    + exists [LogCrawling url; CallGoto url]. split.
      * simpl. now rewrite <- app_assoc.
      * intros u Hu. simpl in Hu. apply list_elem_of_singleton in Hu. subst u.
        split; [simpl; set_solver|done].
  - destruct (saveToFile_trace env url content s) as [e [He Htrace]]. split.
    + now rewrite saveToFile_visited.
    + exists [CallSaveToFile url; e]. split; [done|].
      intros u Hu. destruct He as [-> | [p ->]]; inversion Hu.
  - split; [done|]. exists [e]. split; [done|].
    intros u Hu. destruct e; try discriminate; inversion Hu.
Qed.

Lemma steps_admits (env : Env) (N : Z) (st st' : Crawler) :
  rtc (Step env N) st st' -> Admits st st'.
Proof.
  induction 1 as [|a b c Hab _ IH]; [apply admits_refl|].
  apply (admits_trans a b c); [now apply (step_admits env N)|exact IH].
Qed.

(** C5. On every link graph, from every state and for every budget [N], a
    run of [crawlPage] whose depth allowance exceeds the unspent budget
    returns, and returns the same crawler under any larger allowance.  A
    call that is not skipped puts its URL, which was not there, into
    [visitedUrls], whose size strictly grows, and begins with the admission
    and the navigation of that URL; a call that is skipped (the URL is
    visited, or the budget is spent) returns the crawler as it is.  Every
    admission of the run put one more URL, which was not there, into
    [visitedUrls]; there are at most as many as the budget had left, hence
    at most [N]. *)
Theorem crawlPage_terminates (env : Env) (baseUrl : string) (N : Z)
  (url : string) (st : Crawler) (fuel : nat) :
  (depthLeft N st < fuel)%nat ->
  exists (st' : Crawler) (evs : list Event),
    crawlPage env baseUrl N fuel url st = Done st' /\
    (forall fuel', (fuel <= fuel')%nat ->
       crawlPage env baseUrl N fuel' url st = Done st') /\
    trace st' = trace st ++ evs /\
    size (visitedUrls st') = (size (visitedUrls st) + length (crawled evs))%nat /\
    (length (crawled evs) <= depthLeft N st)%nat /\
    (Z.of_nat (length (crawled evs)) <= Z.max 0 N)%Z /\
    (url ∈ visitedUrls st -> st' = st) /\
    (skips N url st = true -> st' = st) /\
    (skips N url st = false ->
     (url ∉ visitedUrls st) /\ (url ∈ visitedUrls st') /\
     (size (visitedUrls st) < size (visitedUrls st'))%nat /\
     exists evs', evs = LogCrawling url :: CallGoto url :: evs') /\
    (forall u, u ∈ crawled evs -> u ∈ visitedUrls st' /\ u ∉ visitedUrls st).
Proof.
  intros Hfuel.
  destruct (crawlPage_total env baseUrl N fuel url st Hfuel) as [st' Hrun].
  pose proof (crawlPage_grows _ _ _ _ _ _ _ Hrun) as [_ [evs [Htr Hsize]] Hbound _].
  destruct fuel as [|fuel]; [lia|].
  exists st', evs. repeat apply conj; try done.
  - intros fuel' Hle. now apply (crawlPage_more env baseUrl N (S fuel) fuel').
  - unfold depthLeft, visitedSize in *. lia.
  - unfold visitedSize in *. lia.
  - intros Hin. rewrite crawlPage_skip in Hrun; [now inversion Hrun|].
    unfold skips. apply orb_true_iff. right. now apply bool_decide_eq_true.
  - intros Hskip. rewrite crawlPage_skip in Hrun by done. now inversion Hrun.
  - intros Hskip. pose proof Hskip as Hs. apply skips_false in Hs as [_ Hfresh].
    pose proof (crawlPage_begun env baseUrl N fuel url st st' Hskip Hrun)
      as [Hsub [evs2 [Htr2 Hsize2]] _ _].
    split; [done|]. split; [|split].
    + apply Hsub. simpl. set_solver.
    + rewrite Hsize2, (beginVisit_size url st Hfresh). lia.
    + exists evs2. apply (app_inv_head (trace st)). rewrite <- Htr, Htr2.
      simpl. now rewrite <- !app_assoc.
  - pose proof (steps_admits env N st st' (crawlPage_steps _ _ _ _ _ _ _ Hrun))
      as [_ [evs3 [Htr3 Hnew]]].
    assert (evs3 = evs) by (apply (app_inv_head (trace st)); congruence).
    now subst evs3.
Qed.

(** The cycle A -> B -> A under a budget of 5 and a depth allowance of 6. *)
Lemma crawlPage_terminates_witness :
  (depthLeft 5 newCrawler < 6)%nat /\
  exists (st' : Crawler) (evs : list Event),
    crawlPage (Scenario.world (Scenario.serve Scenario.cycleSite))
      Scenario.origin 5 6 Scenario.seed newCrawler = Done st' /\
    (forall fuel', (6 <= fuel')%nat ->
       crawlPage (Scenario.world (Scenario.serve Scenario.cycleSite))
         Scenario.origin 5 fuel' Scenario.seed newCrawler = Done st') /\
    trace st' = trace newCrawler ++ evs /\
    size (visitedUrls st')
    = (size (visitedUrls newCrawler) + length (crawled evs))%nat /\
    (length (crawled evs) <= depthLeft 5 newCrawler)%nat /\
    (Z.of_nat (length (crawled evs)) <= Z.max 0 5)%Z /\
    (Scenario.seed ∈ visitedUrls newCrawler -> st' = newCrawler) /\
    (skips 5 Scenario.seed newCrawler = true -> st' = newCrawler) /\
    (skips 5 Scenario.seed newCrawler = false ->
     (Scenario.seed ∉ visitedUrls newCrawler) /\ (Scenario.seed ∈ visitedUrls st') /\
     (size (visitedUrls newCrawler) < size (visitedUrls st'))%nat /\
     exists evs', evs = LogCrawling Scenario.seed :: CallGoto Scenario.seed :: evs') /\
    (forall u, u ∈ crawled evs -> u ∈ visitedUrls st' /\ u ∉ visitedUrls newCrawler).
Proof.
  assert (H : (depthLeft 5 newCrawler < 6)%nat).
  { unfold depthLeft. rewrite visitedSize_new. lia. }
  split; [exact H|].
  exact (crawlPage_terminates
           (Scenario.world (Scenario.serve Scenario.cycleSite))
           Scenario.origin 5 Scenario.seed newCrawler 6 H).
Defined.

(** ** What a failed page leaves to the others *)

Lemma keeps_refl (st : Crawler) : Keeps st st.
Proof. now split. Qed.

Lemma keeps_trans (a b c : Crawler) : Keeps a b -> Keeps b c -> Keeps a c.
Proof.
  intros [Hc1 Hf1] [Hc2 Hf2]. split; [lia|]. intros p Hp. now apply Hf2, Hf1.
Qed.

Lemma keeps_saveToFile (env : Env) (url content : string) (st : Crawler) :
  Keeps st (saveToFile env url content st).
Proof.
  unfold saveToFile. destruct (writeFile env _ _); split; simpl; try lia; try done.
  intros p Hp.
  destruct (decide ((outputDir ++ "/" ++ urlToFileName url)%string = p)) as [<- | Hne].
  - rewrite lookup_insert_eq. eauto.
  - now rewrite lookup_insert_ne.
Qed.

Lemma step_keeps (env : Env) (N : Z) (st st' : Crawler) :
  Step env N st st' -> Keeps st st'.
Proof.
  intros [url s Hskip | url content s tr Htr | e s He].
  - now split.
  - apply keeps_saveToFile.
  - now split.
Qed.

Lemma steps_keeps (env : Env) (N : Z) (st st' : Crawler) :
  rtc (Step env N) st st' -> Keeps st st'.
Proof.
  induction 1 as [|a b c Hab _ IH]; [apply keeps_refl|].
  apply (keeps_trans a b c); [now apply (step_keeps env N)|exact IH].
Qed.

(** A property that survives each of the ways a visit can go survives
    every run of [crawlPage]; the console line that follows a save is the
    failure line or the discovery line of the same URL. *)
Lemma crawlPage_invariant (env : Env) (baseUrl : string) (N : Z)
  (P : Crawler -> Prop) :
  (forall url st,
     skips N url st = false -> P st -> ~ renders env url ->
     P (emit (LogCrawlFailed url) (beginVisit url st))) ->
  (forall url st pg content e,
     skips N url st = false -> P st -> goto env url = Some pg ->
     extractContent pg = Returned content ->
     e = LogCrawlFailed url \/ (exists n, e = LogDiscovered n url) ->
     P (emit e (saveToFile env url content (beginVisit url st)))) ->
  forall fuel url st st',
    P st -> crawlPage env baseUrl N fuel url st = Done st' -> P st'.
Proof.
  intros Hfail Hsaved.
  induction fuel as [|fuel IH]; intros url st st' Hst Hrun; [discriminate|].
  destruct (skips N url st) eqn:Hskip.
  { rewrite crawlPage_skip in Hrun by done. now inversion Hrun; subst. }
  destruct (goto env url) as [pg|] eqn:Hgoto.
  2:{ simpl in Hrun. rewrite Hskip, Hgoto in Hrun. inversion Hrun; subst.
      apply Hfail; [done|done|]. intros [pg [c [Hg _]]]. congruence. }
  destruct (extractContent pg) as [content|] eqn:Hext.
  2:{ simpl in Hrun. rewrite Hskip, Hgoto, Hext in Hrun. inversion Hrun; subst.
      apply Hfail; [done|done|]. intros [pg' [c [Hg He]]]. congruence. }
  rewrite (crawlPage_rendered env baseUrl N fuel url st pg content Hskip Hgoto Hext)
    in Hrun.
  destruct (discoverLinks env baseUrl pg) as [links|].
  - apply (forLinks_preserves N P (crawlPage env baseUrl N fuel) links IH _ _)
      in Hrun; [done|].
    apply (Hsaved url st pg content); try done. right. eauto.
  - inversion Hrun; subst. apply (Hsaved url st pg content); try done. now left.
Qed.

Lemma settled_visit (env : Env) (url : string) (st st2 : Crawler)
  (evs : list Event) :
  Settled env st ->
  (forall u, u ∈ visitedUrls st2 <-> u = url \/ u ∈ visitedUrls st) ->
  trace st2 = trace st ++ evs ->
  (forall p, is_Some (disk st !! p) -> is_Some (disk st2 !! p)) ->
  (forall pg content,
     goto env url = Some pg -> extractContent pg = Returned content ->
     writeFile env (artifactPath url) (artifactText url content) = true ->
     LogSaved (artifactPath url) ∈ evs /\ is_Some (disk st2 !! artifactPath url)) ->
  (~ renders env url -> LogCrawlFailed url ∈ evs) ->
  (forall n u, LogDiscovered n u ∈ evs -> renders env u) ->
  Settled env st2.
Proof.
  intros [Hw Hf Hq] Hv Htr Hdisk Hwritten Hfailed Hquiet. split.
  - intros u pg content Hu Hgoto Hext Hwrite. rewrite Htr, elem_of_app.
    apply Hv in Hu as [-> | Hu].
    + destruct (Hwritten pg content Hgoto Hext Hwrite) as [H1 H2]. split; [now right|done].
    + destruct (Hw u pg content Hu Hgoto Hext Hwrite) as [H1 H2].
      split; [now left|now apply Hdisk].
  - intros u Hu Hno. rewrite Htr, elem_of_app. apply Hv in Hu as [-> | Hu];
      [right; now apply Hfailed|left; now apply Hf].
  - intros n u Hu. rewrite Htr, elem_of_app in Hu. destruct Hu as [Hu | Hu];
      [now apply (Hq n)|now apply (Hquiet n)].
Qed.

Lemma crawlPage_settled (env : Env) (baseUrl : string) (N : Z) (fuel : nat)
  (url : string) (st st' : Crawler) :
  Settled env st -> crawlPage env baseUrl N fuel url st = Done st' ->
  Settled env st'.
Proof.
  apply (crawlPage_invariant env baseUrl N (Settled env)).
  - intros u s _ Hs Hno.
    apply (settled_visit env u s _
             [LogCrawling u; CallGoto u; LogCrawlFailed u] Hs).
    + apply beginVisit_visited.
    + simpl. now rewrite <- !app_assoc.
    + done.
    + intros pg content Hgoto Hext _. destruct Hno. now exists pg, content.
    + intros _. do 2 apply list_elem_of_further. apply list_elem_of_here.
    + intros n x Hx. rewrite !elem_of_cons in Hx.
      destruct Hx as [Hx | [Hx | [Hx | Hx]]]; try discriminate. inversion Hx.
  - intros u s pg content e _ Hs Hgoto Hext He.
    assert (Hr : renders env u) by now exists pg, content.
    destruct (saveToFile_trace env u content (beginVisit u s)) as [e' [He' Htr]].
    apply (settled_visit env u s _
             [LogCrawling u; CallGoto u; CallSaveToFile u; e'; e] Hs).
    + intros x.
      change (visitedUrls (emit e (saveToFile env u content (beginVisit u s))))
        with (visitedUrls (saveToFile env u content (beginVisit u s))).
      rewrite saveToFile_visited. apply beginVisit_visited.
    + change (trace (emit e (saveToFile env u content (beginVisit u s))))
        with (trace (saveToFile env u content (beginVisit u s)) ++ [e]).
      rewrite Htr. simpl. now rewrite <- !app_assoc.
    + intros p Hp.
      change (disk (emit e (saveToFile env u content (beginVisit u s))))
        with (disk (saveToFile env u content (beginVisit u s))).
      now apply (keeps_files _ _ (keeps_saveToFile env u content (beginVisit u s))).
    + intros pg' c' Hgoto' Hext' Hwrite.
      assert (c' = content) by congruence. subst c'.
      change (disk (emit e (saveToFile env u content (beginVisit u s))))
        with (disk (saveToFile env u content (beginVisit u s))).
      pose proof (saveToFile_written env u content (beginVisit u s) Hwrite) as Hsave.
      split.
      * rewrite Hsave in Htr. simpl in Htr. rewrite <- !app_assoc in Htr.
        apply app_inv_head in Htr. simpl in Htr. inversion Htr; subst e'.
        do 3 apply list_elem_of_further. apply list_elem_of_here.
      * rewrite Hsave. simpl. rewrite lookup_insert_eq. eauto.
    + intros Hno. now destruct Hno.
    + intros n x Hx. rewrite !elem_of_cons in Hx.
      destruct Hx as [Hx | [Hx | [Hx | [Hx | [Hx | Hx]]]]]; try discriminate.
      * destruct He' as [-> | [p ->]]; discriminate.
      * destruct He as [-> | [m ->]]; [discriminate|]. now inversion Hx; subst.
      * inversion Hx.
Qed.

Lemma settled_new (env : Env) : Settled env newCrawler.
Proof.
  split.
  - intros u pg content Hu. simpl in Hu. set_solver.
  - intros u Hu. simpl in Hu. set_solver.
  - intros n u Hu. inversion Hu.
Qed.

Lemma settled_fields (env : Env) (st st' : Crawler) :
  visitedUrls st' = visitedUrls st -> disk st' = disk st ->
  (forall e, e ∈ trace st -> e ∈ trace st') ->
  (forall n u, LogDiscovered n u ∈ trace st' -> LogDiscovered n u ∈ trace st) ->
  Settled env st -> Settled env st'.
Proof.
  intros Hv Hd Ht Ht' [Hw Hf Hq]. split.
  - intros u pg content Hu Hgoto Hext Hwrite. rewrite Hv in Hu. rewrite Hd.
    destruct (Hw u pg content Hu Hgoto Hext Hwrite). split; [now apply Ht|done].
  - intros u Hu Hno. rewrite Hv in Hu. now apply Ht, Hf.
  - intros n u Hu. apply (Hq n). now apply Ht'.
Qed.

Lemma crawl_settled (env : Env) (startUrl : string) (N : Z) :
  endsWith (crawl env startUrl N newCrawler) (Settled env).
Proof.
  apply crawl_preserves.
  - intros baseUrl fuel url s s'. apply crawlPage_settled.
  - intros b s. now apply settled_fields.
  - intros n s. apply settled_fields; try done.
    + intros e He. apply elem_of_app. now left.
    + intros m u Hu. apply elem_of_app in Hu as [Hu | Hu]; [done|].
      apply list_elem_of_singleton in Hu. discriminate.
  - apply settled_new.
Qed.

(** *** Closed under discovered links *)

Lemma forLinks_closes (env : Env) (baseUrl : string) (N : Z) (fuel : nat)
  (links : list string) :
  (forall url st st',
     crawlPage env baseUrl N fuel url st = Done st' ->
     (visitedSize st' < N)%Z ->
     url ∈ visitedUrls st' /\
     forall u, u ∈ visitedUrls st' -> u ∉ visitedUrls st ->
       forall ls, linksOf env baseUrl u = Some ls ->
                  forall l, l ∈ ls -> l ∈ visitedUrls st') ->
  forall st st',
    forLinks N (crawlPage env baseUrl N fuel) links st = Done st' ->
    (visitedSize st' < N)%Z ->
    (forall l, l ∈ links -> l ∈ visitedUrls st') /\
    forall u, u ∈ visitedUrls st' -> u ∉ visitedUrls st ->
      forall ls, linksOf env baseUrl u = Some ls ->
                 forall l, l ∈ ls -> l ∈ visitedUrls st'.
Proof.
  intros IHf. induction links as [|link rest IH]; intros st st' Hrun Hleft.
  - inversion Hrun; subst. split; [intros l Hl; inversion Hl|]. intros u Hu Hn. done.
  - rewrite forLinks_cons in Hrun.
    destruct (visitedSize st <? N)%Z eqn:Hlt.
    2:{ inversion Hrun; subst. apply Z.ltb_ge in Hlt. lia. }
    destruct (crawlPage env baseUrl N fuel link st) as [st1|] eqn:Hlink;
      [|discriminate].
    destruct (IH st1 st' Hrun Hleft) as [Hrest Hnew].
    assert (Hg : Grows N st1 st').
    { apply (steps_grows env).
      apply (forLinks_steps env N (crawlPage env baseUrl N fuel) rest);
        [apply crawlPage_steps|exact Hrun]. }
    pose proof (grows_size N _ _ Hg) as Hsize.
    destruct (IHf link st st1 Hlink) as [Hin Hnew1]; [lia|].
    split.
    + intros l Hl. apply elem_of_cons in Hl as [-> | Hl]; [|now apply Hrest].
      now apply (grows_visited _ _ _ Hg).
    + intros u Hu Hn ls Hls l Hl.
      destruct (decide (u ∈ visitedUrls st1)) as [Hu1 | Hu1].
      * apply (grows_visited _ _ _ Hg). now apply (Hnew1 u Hu1 Hn ls Hls).
      * now apply (Hnew u Hu Hu1 ls Hls).
Qed.

(** When a run of [crawlPage] ends with budget to spare, its URL is visited
    and every URL it added has all the links of its page visited. *)
Lemma crawlPage_closes (env : Env) (baseUrl : string) (N : Z) (fuel : nat) :
  forall url st st',
    crawlPage env baseUrl N fuel url st = Done st' ->
    (visitedSize st' < N)%Z ->
    url ∈ visitedUrls st' /\
    forall u, u ∈ visitedUrls st' -> u ∉ visitedUrls st ->
      forall ls, linksOf env baseUrl u = Some ls ->
                 forall l, l ∈ ls -> l ∈ visitedUrls st'.
Proof.
  induction fuel as [|fuel IH]; intros url st st' Hrun Hleft; [discriminate|].
  destruct (skips N url st) eqn:Hskip.
  { rewrite crawlPage_skip in Hrun by done. inversion Hrun; subst.
    split; [|intros u Hu Hn; done].
    unfold skips in Hskip. apply orb_true_iff in Hskip as [Hfull | Hin].
    - rewrite Z.geb_leb in Hfull. apply Z.leb_le in Hfull. lia.
    - now apply bool_decide_eq_true in Hin. }
  pose proof (crawlPage_begun env baseUrl N fuel url st st' Hskip Hrun) as Hg.
  assert (Hurl : url ∈ visitedUrls st').
  { apply (grows_visited _ _ _ Hg). apply beginVisit_visited. now left. }
  split; [exact Hurl|].
  assert (Hone : forall st2,
             visitedUrls st2 = visitedUrls (beginVisit url st) -> st' = st2 ->
             linksOf env baseUrl url = None ->
             forall u, u ∈ visitedUrls st' -> u ∉ visitedUrls st ->
               forall ls, linksOf env baseUrl u = Some ls ->
                          forall l, l ∈ ls -> l ∈ visitedUrls st').
  { intros st2 Hv -> Hnone u Hu Hn ls Hls. rewrite Hv in Hu.
    apply beginVisit_visited in Hu as [-> | Hu]; [congruence|done]. }
  destruct (goto env url) as [pg|] eqn:Hgoto.
  2:{ simpl in Hrun. rewrite Hskip, Hgoto in Hrun. injection Hrun as Heq.
      apply (Hone (emit (LogCrawlFailed url) (beginVisit url st)) eq_refl
               (eq_sym Heq)).
      unfold linksOf. now rewrite Hgoto. }
  destruct (extractContent pg) as [content|] eqn:Hext.
  2:{ simpl in Hrun. rewrite Hskip, Hgoto, Hext in Hrun. injection Hrun as Heq.
      apply (Hone (emit (LogCrawlFailed url) (beginVisit url st)) eq_refl
               (eq_sym Heq)).
      unfold linksOf. now rewrite Hgoto, Hext. }
  rewrite (crawlPage_rendered env baseUrl N fuel url st pg content Hskip Hgoto Hext)
    in Hrun.
  destruct (discoverLinks env baseUrl pg) as [links|] eqn:Hlinks.
  2:{ injection Hrun as Heq.
      apply (Hone (emit (LogCrawlFailed url)
                     (saveToFile env url content (beginVisit url st)))
               (saveToFile_visited env url content (beginVisit url st))
               (eq_sym Heq)).
      unfold linksOf. now rewrite Hgoto, Hext, Hlinks. }
  destruct (forLinks_closes env baseUrl N fuel links IH _ _ Hrun Hleft)
    as [Hall Hnew].
  intros u Hu Hn ls Hls l Hl.
  destruct (decide (u = url)) as [-> | Hne].
  - unfold linksOf in Hls. rewrite Hgoto, Hext, Hlinks in Hls.
    inversion Hls; subst. now apply Hall.
  - refine (Hnew u Hu _ ls Hls l Hl).
    change (visitedUrls (emit (LogDiscovered (length links) url)
                           (saveToFile env url content (beginVisit url st))))
      with (visitedUrls (saveToFile env url content (beginVisit url st))).
    rewrite saveToFile_visited. intros H. apply beginVisit_visited in H as [H | H]; done.
Qed.

(** *** The same walk as with a page without links *)

Lemma forEachAnchor_withPage (env : Env) (X : string) (pg : Page)
  (baseUrl : string) (anchors : list (option string)) :
  forall links,
    forEachAnchor (withPage env X pg) baseUrl anchors links
    = forEachAnchor env baseUrl anchors links.
Proof.
  induction anchors as [|attr rest IH]; intros links; simpl; [done|].
  change (resolveHref (withPage env X pg) baseUrl attr)
    with (resolveHref env baseUrl attr).
  destruct (resolveHref env baseUrl attr); [apply IH|done].
Qed.

Lemma discoverLinks_withPage (env : Env) (X : string) (pg p : Page)
  (baseUrl : string) :
  discoverLinks (withPage env X pg) baseUrl p = discoverLinks env baseUrl p.
Proof. apply forEachAnchor_withPage. Qed.

Lemma saveToFile_withPage (env : Env) (X : string) (pg : Page)
  (u content : string) (st : Crawler) :
  saveToFile (withPage env X pg) u content st = saveToFile env u content st.
Proof. reflexivity. Qed.

Lemma alike_emit (X : string) (e e' : Event) (st st' : Crawler) :
  gotoUrl e = None -> savedUrl e = None ->
  gotoUrl e' = None -> savedUrl e' = None ->
  Alike X st st' -> Alike X (emit e st) (emit e' st').
Proof.
  intros H1 H2 H3 H4 [Hv Hn Hs Hd Hc]. split; simpl; try done.
  - rewrite !navigated_app. simpl. now rewrite H1, H3, Hn.
  - rewrite !saveCalls_app. simpl. rewrite H2, H4. simpl.
    now rewrite !app_nil_r.
Qed.

Lemma alike_beginVisit (X url : string) (st st' : Crawler) :
  Alike X st st' -> Alike X (beginVisit url st) (beginVisit url st').
Proof.
  intros [Hv Hn Hs Hd Hc]. split; simpl; try done.
  - now rewrite Hv.
  - rewrite !navigated_app. simpl. now rewrite Hn.
  - rewrite !saveCalls_app. simpl. now rewrite !app_nil_r.
Qed.

Lemma alike_saveToFile (env : Env) (X u content : string) (st st' : Crawler) :
  u <> X -> Alike X st st' ->
  Alike X (saveToFile env u content st) (saveToFile env u content st').
Proof.
  intros Hne [Hv Hn Hs Hd Hc]. unfold saveToFile.
  destruct (writeFile env _ _); split; simpl; try done; try lia.
  - rewrite !navigated_app. simpl. now rewrite !app_nil_r.
  - rewrite !saveCalls_app. simpl. rewrite !app_nil_r, filter_app, Hs.
    now rewrite filter_cons_True.
  - intros p Hp.
    destruct (decide ((outputDir ++ "/" ++ urlToFileName u)%string = p)) as [<- | Hq].
    + now rewrite !lookup_insert_eq.
    + rewrite !lookup_insert_ne by done. now apply Hd.
  - rewrite !navigated_app. simpl. now rewrite !app_nil_r.
  - rewrite !saveCalls_app. simpl. rewrite !app_nil_r, filter_app, Hs.
    now rewrite filter_cons_True.
Qed.

(** A save of [X] on the right alone. *)
Lemma alike_saveToFile_right (env : Env) (X content : string) (st st' : Crawler) :
  Alike X st st' -> Alike X st (saveToFile env X content st').
Proof.
  intros [Hv Hn Hs Hd Hc]. unfold saveToFile.
  destruct (writeFile env _ _); split; simpl; try done; try lia.
  - rewrite !navigated_app. simpl. now rewrite !app_nil_r.
  - rewrite !saveCalls_app. simpl. rewrite !app_nil_r, filter_app, <- Hs.
    rewrite filter_cons_False by (intros H; now apply H). simpl.
    now rewrite app_nil_r.
  - intros p Hp. rewrite lookup_insert_ne; [now apply Hd|].
    intros H. apply Hp. now rewrite <- H.
  - rewrite !navigated_app. simpl. now rewrite !app_nil_r.
  - rewrite !saveCalls_app. simpl. rewrite !app_nil_r, filter_app, <- Hs.
    rewrite filter_cons_False by (intros H; now apply H). simpl.
    now rewrite app_nil_r.
Qed.

Lemma alike_skips (X : string) (N : Z) (url : string) (st st' : Crawler) :
  Alike X st st' -> skips N url st = skips N url st'.
Proof. intros [Hv _ _ _ _]. unfold skips, visitedSize. now rewrite Hv. Qed.

Lemma forLinks_alike (X : string) (N : Z) (v v' : string -> Crawler -> Run)
  (links : list string) :
  (forall url st st' s,
     Alike X st st' -> v url st = Done s ->
     exists s', v' url st' = Done s' /\ Alike X s s') ->
  forall st st' s,
    Alike X st st' -> forLinks N v links st = Done s ->
    exists s', forLinks N v' links st' = Done s' /\ Alike X s s'.
Proof.
  intros Hv. induction links as [|link rest IH]; intros st st' s Hst Hrun.
  - inversion Hrun; subst. now exists st'.
  - rewrite forLinks_cons in Hrun. rewrite forLinks_cons.
    assert (Hsize : visitedSize st' = visitedSize st).
    { unfold visitedSize. now rewrite (alike_visited _ _ _ Hst). }
    rewrite Hsize. destruct (visitedSize st <? N)%Z.
    + destruct (v link st) as [st1|] eqn:Hlink; [|discriminate].
      destruct (Hv link st st' st1 Hst Hlink) as [st1' [Hlink' Hst1]].
      rewrite Hlink'. now apply (IH st1 st1').
    + inversion Hrun; subst. now exists st'.
Qed.

(** A crawl in which [X] does not load walks like the crawl in which [X]
    loads a page without links. *)
Lemma crawlPage_alike (env : Env) (X : string) (pgX : Page) (baseUrl : string)
  (N : Z) :
  goto env X = None -> anchorHrefs pgX = [] ->
  forall fuel url st st' s,
    Alike X st st' ->
    crawlPage env baseUrl N fuel url st = Done s ->
    exists s',
      crawlPage (withPage env X pgX) baseUrl N fuel url st' = Done s' /\
      Alike X s s'.
Proof.
  intros HX Hleaf.
  induction fuel as [|fuel IH]; intros url st st' s Hst Hrun; [discriminate|].
  simpl in Hrun. simpl. rewrite <- (alike_skips X N url st st' Hst).
  destruct (skips N url st); [inversion Hrun; subst; now exists st'|].
  fold (beginVisit url st) in Hrun. fold (beginVisit url st').
  pose proof (alike_beginVisit X url st st' Hst) as Hb.
  destruct (String.eqb url X) eqn:Heq.
  - apply String.eqb_eq in Heq. subst url. rewrite HX in Hrun.
    inversion Hrun; subst.
    destruct (extractContent pgX) as [content|].
    + rewrite discoverLinks_withPage. unfold discoverLinks. rewrite Hleaf. simpl.
      eexists. split; [reflexivity|].
      apply alike_emit; try done.
      rewrite saveToFile_withPage. now apply alike_saveToFile_right.
    + eexists. split; [reflexivity|]. now apply alike_emit.
  - apply String.eqb_neq in Heq.
    destruct (goto env url) as [pg|].
    2:{ inversion Hrun; subst. eexists. split; [reflexivity|]. now apply alike_emit. }
    destruct (extractContent pg) as [content|].
    2:{ inversion Hrun; subst. eexists. split; [reflexivity|]. now apply alike_emit. }
    rewrite discoverLinks_withPage, saveToFile_withPage.
    pose proof (alike_saveToFile env X url content _ _ Heq Hb) as Hsv.
    destruct (discoverLinks env baseUrl pg) as [links|].
    + refine (forLinks_alike X N (crawlPage env baseUrl N fuel)
                (crawlPage (withPage env X pgX) baseUrl N fuel) links IH
                (emit (LogDiscovered (length links) url)
                   (saveToFile env url content (beginVisit url st)))
                (emit (LogDiscovered (length links) url)
                   (saveToFile env url content (beginVisit url st')))
                s _ Hrun).
      now apply alike_emit.
    + inversion Hrun; subst. eexists. split; [reflexivity|]. now apply alike_emit.
Qed.

Lemma alike_new (X : string) : Alike X newCrawler newCrawler.
Proof. now split. Qed.

Lemma alike_setBrowser (X : string) (b : BrowserState) (st st' : Crawler) :
  Alike X st st' -> Alike X (setBrowser b st) (setBrowser b st').
Proof. intros [Hv Hn Hs Hd Hc]. now split. Qed.

Lemma crawl_alike (env : Env) (X : string) (pgX : Page) (startUrl : string)
  (N : Z) :
  goto env X = None -> anchorHrefs pgX = [] ->
  match crawl env startUrl N newCrawler,
        crawl (withPage env X pgX) startUrl N newCrawler with
  | Resolved s, Resolved s' => Alike X s s'
  | Rejected _, Rejected _ => True
  | _, _ => False
  end.
Proof.
  intros HX Hleaf. unfold crawl.
  change (launch (withPage env X pgX)) with (launch env).
  change (newPage (withPage env X pgX)) with (newPage env).
  change (urlOrigin (withPage env X pgX) startUrl) with (urlOrigin env startUrl).
  destruct (launch env); [|done]. destruct (newPage env); [|done].
  destruct (urlOrigin env startUrl) as [baseUrl|]; [|done].
  destruct (crawlPage_total env baseUrl N (crawlFuel N) startUrl
              (setBrowser BrowserOpen newCrawler)) as [s Hs];
    [apply crawlFuel_enough|].
  destruct (crawlPage_alike env X pgX baseUrl N HX Hleaf _ _ _ _ s
              (alike_setBrowser X BrowserOpen _ _ (alike_new X)) Hs)
    as [s' [Hs' Hss']].
  rewrite Hs, Hs'.
  apply alike_emit; try done. now apply alike_setBrowser.
Qed.

(** *** The whole crawl *)

Lemma crawl_served (env : Env) (startUrl : string) (N : Z) :
  endsWith (crawl env startUrl N newCrawler) (Served env).
Proof.
  apply crawl_preserves.
  - intros baseUrl fuel url s s'. apply crawlPage_served.
  - intros b s [Hg Hs Ho]. now split.
  - intros n s [Hg Hs Ho]. split; simpl.
    + intros u Hu. apply elem_of_app. left. now apply Hg.
    + intros u Hu Hr. apply elem_of_app. left. now apply Hs.
    + intros u Hu. apply elem_of_app in Hu as [Hu | Hu]; [now apply Ho|].
      apply list_elem_of_singleton in Hu. discriminate.
  - split; simpl.
    + intros u Hu. set_solver.
    + intros u Hu. set_solver.
    + intros u Hu. inversion Hu.
Qed.

Lemma crawl_tallied (env : Env) (startUrl : string) (N : Z) :
  endsWith (crawl env startUrl N newCrawler) (Tallied env).
Proof.
  apply crawl_preserves.
  - intros baseUrl fuel url s s'. apply crawlPage_tallied.
  - intros b s Hs. exact Hs.
  - intros n s Hs. unfold Tallied in *. simpl. rewrite crawled_app. simpl.
    now rewrite app_nil_r.
  - reflexivity.
Qed.

Lemma crawl_closed (env : Env) (startUrl : string) (N : Z) :
  endsWith (crawl env startUrl N newCrawler)
    (fun s =>
       forall base,
         urlOrigin env startUrl = Some base -> (visitedSize s < N)%Z ->
         forall u ls,
           u ∈ visitedUrls s -> linksOf env base u = Some ls ->
           forall l, l ∈ ls -> l ∈ visitedUrls s).
Proof.
  unfold crawl.
  destruct (launch env).
  2:{ intros base _ _ u ls Hu. simpl in Hu. set_solver. }
  destruct (newPage env).
  2:{ intros base _ _ u ls Hu. simpl in Hu. set_solver. }
  destruct (urlOrigin env startUrl) as [baseUrl|].
  2:{ intros base Hb. discriminate. }
  destruct (crawlPage_total env baseUrl N (crawlFuel N) startUrl
              (setBrowser BrowserOpen newCrawler)) as [s Hs];
    [apply crawlFuel_enough|].
  rewrite Hs. intros base Hb Hleft u ls Hu Hls l Hl.
  inversion Hb; subst base.
  destruct (crawlPage_closes env baseUrl N _ _ _ _ Hs Hleft) as [_ Hnew].
  apply (Hnew u Hu) with (ls := ls); [|done|done].
  simpl. set_solver.
Qed.

(** C6. When [page.goto] throws for a URL [X] that is not skipped, the visit
    of [X] ends in the [catch]: [X] is in [visitedUrls], the trace gains the
    admission, the navigation and the failure line only (no call of
    [saveToFile], no discovery), and the page counter and the files are as
    before.  The loop of the caller goes on with the links after [X] from that
    state: the next link [Y] within budget is admitted and navigated to, and
    when its page renders it is handed to [saveToFile]; when the write
    succeeds the save is announced, the file is on disk and the counter has
    grown.  For the crawl as a whole, from any start URL: [X], if visited, has
    its failure line and neither a save nor a discovery; every visited URL
    was navigated to, every one whose page rendered was saved, with its file
    on disk when the write succeeded; [pageCount] counts exactly the visited
    URLs that rendered and were written; when the crawl ends with budget to
    spare every link found on a rendered page has been visited; and the crawl
    visits the same URLs in the same order, and saves the same URLs other
    than [X] to the same files, as the crawl in which [X] loads a page
    without links. *)
Theorem render_failure_isolated (env : Env) (baseUrl : string) (N : Z)
  (fuel : nat) (X : string) (rest : list string) (st : Crawler) :
  goto env X = None ->
  skips N X st = false ->
  let st1 := emit (LogCrawlFailed X) (beginVisit X st) in
  crawlPage env baseUrl N (S fuel) X st = Done st1 /\
  X ∈ visitedUrls st1 /\
  trace st1 = trace st ++ [LogCrawling X; CallGoto X; LogCrawlFailed X] /\
  pageCount st1 = pageCount st /\
  disk st1 = disk st /\
  forLinks N (crawlPage env baseUrl N (S fuel)) (X :: rest) st
  = forLinks N (crawlPage env baseUrl N (S fuel)) rest st1 /\
  (forall Y,
     skips N Y st1 = false ->
     (depthLeft N st1 <= fuel)%nat ->
     exists st2,
       forLinks N (crawlPage env baseUrl N (S fuel)) (X :: Y :: rest) st = Done st2 /\
       Y ∈ visitedUrls st2 /\
       CallGoto Y ∈ trace st2 /\
       forall pg content,
         goto env Y = Some pg -> extractContent pg = Returned content ->
         CallSaveToFile Y ∈ trace st2 /\
         (writeFile env (artifactPath Y) (artifactText Y content) = true ->
          LogSaved (artifactPath Y) ∈ trace st2 /\
          is_Some (disk st2 !! artifactPath Y) /\
          (pageCount st < pageCount st2)%nat)) /\
  (forall startUrl,
     endsWith (crawl env startUrl N newCrawler)
       (fun s =>
          (X ∈ visitedUrls s ->
           LogCrawlFailed X ∈ trace s /\
           (CallSaveToFile X ∉ trace s) /\
           forall n, LogDiscovered n X ∉ trace s) /\
          (forall u,
             u ∈ visitedUrls s ->
             CallGoto u ∈ trace s /\
             forall pg content,
               goto env u = Some pg -> extractContent pg = Returned content ->
               CallSaveToFile u ∈ trace s /\
               (writeFile env (artifactPath u) (artifactText u content) = true ->
                LogSaved (artifactPath u) ∈ trace s /\
                is_Some (disk s !! artifactPath u))) /\
          pageCount s = length (List.filter (written env) (crawled (trace s))) /\
          (forall base,
             urlOrigin env startUrl = Some base -> (visitedSize s < N)%Z ->
             forall u ls,
               u ∈ visitedUrls s -> linksOf env base u = Some ls ->
               forall l, l ∈ ls -> l ∈ visitedUrls s))) /\
  (forall pgX startUrl,
     anchorHrefs pgX = [] ->
     match crawl env startUrl N newCrawler,
           crawl (withPage env X pgX) startUrl N newCrawler with
     | Resolved s, Resolved s' =>
         visitedUrls s = visitedUrls s' /\
         navigated (trace s) = navigated (trace s') /\
         saveCalls (trace s) = filter (fun u => u <> X) (saveCalls (trace s')) /\
         forall p, p <> artifactPath X -> disk s !! p = disk s' !! p
     | Rejected _, Rejected _ => True
     | _, _ => False
     end).
Proof.
  intros Hgoto Hskip st1.
  assert (Hno : ~ renders env X) by (intros [pg [c [Hg _]]]; congruence).
  assert (Hrun : crawlPage env baseUrl N (S fuel) X st = Done st1).
  { simpl. now rewrite Hskip, Hgoto. }
  assert (Hlt : (visitedSize st <? N)%Z = true).
  { apply skips_false in Hskip as [Hlt _]. now apply Z.ltb_lt. }
  assert (Hloop : forLinks N (crawlPage env baseUrl N (S fuel)) (X :: rest) st
                  = forLinks N (crawlPage env baseUrl N (S fuel)) rest st1)
    by now rewrite forLinks_cons, Hlt, Hrun.
  split; [exact Hrun|]. split; [apply beginVisit_visited; now left|].
  split; [unfold st1, beginVisit; simpl; now rewrite <- !app_assoc|].
  split; [reflexivity|]. split; [reflexivity|]. split; [exact Hloop|].
  split; [|split].
  - intros Y HskipY Hdepth.
    pose proof HskipY as Hs. apply skips_false in Hs as [HltY HfreshY].
    destruct (crawlPage_total env baseUrl N (S fuel) Y st1) as [stY HrunY]; [lia|].
    destruct (forLinks_total N (crawlPage env baseUrl N (S fuel)) (visitedSize st1) rest)
      with (st := stY) as [st2 Hst2].
    + intros u s Hs. apply crawlPage_total. unfold depthLeft in *. lia.
    + intros u s s' Hus. eapply grows_size, crawlPage_grows, Hus.
    + eapply grows_size, crawlPage_grows, HrunY.
    + assert (Hsteps2 : rtc (Step env N) stY st2).
      { apply (forLinks_steps env N (crawlPage env baseUrl N (S fuel)) rest);
          [|exact Hst2]. apply crawlPage_steps. }
      pose proof (steps_grows env N _ _ Hsteps2) as Hg2.
      pose proof (crawlPage_begun env baseUrl N fuel Y st1 stY HskipY HrunY) as HgY.
      pose proof (grows_trans N _ _ _ HgY Hg2) as Hg.
      exists st2. split; [|split; [|split]].
      * apply Z.ltb_lt in HltY.
        now rewrite forLinks_cons, Hlt, Hrun, forLinks_cons, HltY, HrunY.
      * apply (grows_visited _ _ _ Hg). apply beginVisit_visited. now left.
      * apply (grows_trace_elem N _ _ _ Hg). simpl.
        apply elem_of_app. right. apply list_elem_of_here.
      * intros pg content HgotoY Hext.
        pose proof (crawlPage_after_save_steps env baseUrl N fuel Y st1 stY pg
                      content HskipY HgotoY Hext HrunY) as HstepsY.
        assert (Hsteps : rtc (Step env N) (saveToFile env Y content (beginVisit Y st1)) st2)
          by (apply rtc_trans with stY; assumption).
        pose proof (steps_grows env N _ _ Hsteps) as Hgs.
        pose proof (steps_keeps env N _ _ Hsteps) as [Hcount Hfiles].
        split.
        -- apply (grows_trace_elem N _ _ _ Hgs).
           destruct (saveToFile_trace env Y content (beginVisit Y st1))
             as [e [_ Htr]].
           rewrite Htr. apply elem_of_app. right. apply list_elem_of_here.
        -- intros Hwrite.
           pose proof (saveToFile_written env Y content (beginVisit Y st1) Hwrite)
             as Hsave.
           rewrite Hsave in Hgs, Hcount, Hfiles. split; [|split].
           ++ apply (grows_trace_elem N _ _ _ Hgs). simpl.
              apply elem_of_app. right. apply list_elem_of_here.
           ++ apply Hfiles. simpl. rewrite lookup_insert_eq. eauto.
           ++ simpl in Hcount. lia.
  - intros startUrl.
    pose proof (endsWith_conj _ _ _ (crawl_consistent env startUrl N newCrawler
                                       consistent_new)
                  (endsWith_conj _ _ _ (crawl_served env startUrl N)
                     (endsWith_conj _ _ _ (crawl_settled env startUrl N)
                        (endsWith_conj _ _ _ (crawl_tallied env startUrl N)
                           (crawl_closed env startUrl N))))) as H.
    eapply endsWith_impl; [|exact H].
    intros s [Hc [[Hsg Hss Hso] [[Hw Hf Hq] [Ht Hcl]]]].
    split; [|split; [|split]].
    + intros HX. split; [now apply Hf|]. split.
      * intros Hin. now apply Hno, Hso.
      * intros n Hin. now apply Hno, (Hq n).
    + intros u Hu. split; [now apply Hsg|].
      intros pg content Hg He. split.
      * apply Hss; [done|]. now exists pg, content.
      * intros Hwrite. now apply (Hw u pg content).
    + exact Ht.
    + exact Hcl.
  - intros pgX startUrl Hleaf.
    pose proof (crawl_alike env X pgX startUrl N Hgoto Hleaf) as H.
    destruct (crawl env startUrl N newCrawler) as [s|s|];
      destruct (crawl (withPage env X pgX) startUrl N newCrawler) as [s'|s'|];
      try done.
    now destruct H as [Hv Hn Hs Hd _].
Qed.

(** [/x] does not render; [/y], the next link of the home page, does. *)
Lemma render_failure_isolated_witness :
  goto (Scenario.world (Scenario.serve Scenario.brokenSite))
    "https://example.test/x" = None /\
  skips 3 "https://example.test/x" newCrawler = false /\
  crawlPage (Scenario.world (Scenario.serve Scenario.brokenSite))
    Scenario.origin 3 4 "https://example.test/x" newCrawler
  = Done (emit (LogCrawlFailed "https://example.test/x")
            (beginVisit "https://example.test/x" newCrawler)).
Proof.
  assert (Hgoto : goto (Scenario.world (Scenario.serve Scenario.brokenSite))
                    "https://example.test/x" = None) by reflexivity.
  assert (Hskip : skips 3 "https://example.test/x" newCrawler = false)
    by (vm_compute; reflexivity).
  split; [exact Hgoto|]. split; [exact Hskip|].
  exact (proj1 (render_failure_isolated
                  (Scenario.world (Scenario.serve Scenario.brokenSite))
                  Scenario.origin 3 3 "https://example.test/x"
                  ["https://example.test/y"] newCrawler Hgoto Hskip)).
Defined.

(** The broken site, crawled: [/x] fails, [/y] after it is visited and
    saved, and two files are written. *)
Example broken_scenario :
  let o := crawl (Scenario.world (Scenario.serve Scenario.brokenSite))
             Scenario.seed 5 newCrawler in
  trace <$> finalState o
  = Some [LogCrawling "https://example.test/";
          CallGoto "https://example.test/";
          CallSaveToFile "https://example.test/";
          LogSaved "output/example_test_.txt";
          LogDiscovered 2 "https://example.test/";
          LogCrawling "https://example.test/x";
          CallGoto "https://example.test/x";
          LogCrawlFailed "https://example.test/x";
          LogCrawling "https://example.test/y";
          CallGoto "https://example.test/y";
          CallSaveToFile "https://example.test/y";
          LogSaved "output/example_test_y.txt";
          LogDiscovered 0 "https://example.test/y";
          LogCompleted 2] /\
  pageCount <$> finalState o = Some 2%nat /\
  (fun st => size (disk st)) <$> finalState o = Some 2%nat.
Proof. cbv zeta. repeat apply conj; vm_compute; reflexivity. Qed.
